(** * TreeCache: the frontend cache of the note tree

    A shallow embedding of [TreeCache] (services/tree_cache.js): the batch
    merge [addResp], the lazy loader [reloadNotes] / [getNotes], the branch
    lookups [getBranch] / [getBranches] and the sync reconciler
    [processSyncRows].

    JavaScript objects used as dictionaries ([this.notes], [this.branches],
    [this.attributes], [parentToBranch], [childToBranch]) are finite maps
    keyed by strings; arrays are lists.  Entities are mutated in place in the
    source and are reachable only through the dictionary slot of their id, so
    an in-place mutation of [this.notes[id]] is an update of slot [id]. *)

From stdpp Require Import base strings gmap list.
From Stdlib Require Import ZArith.

(** ** JavaScript values and errors *)

(** The result of a lookup that may fall off the end of a function
    ([undefined]), return [null], or return an object. *)
Inductive jsval (A : Type) : Type :=
  | JsUndefined
  | JsNull
  | JsObject (a : A).
Arguments JsUndefined {A}.
Arguments JsNull {A}.
Arguments JsObject {A} a.

(** [v !== null] *)
Definition strict_ne_null {A} (v : jsval A) : bool :=
  match v with JsNull => false | _ => true end.

(** [!!v] *)
Definition truthy {A} (v : jsval A) : bool :=
  match v with JsObject _ => true | _ => false end.

Inductive JsError : Type :=
  | TypeError (msg : string)
  | Error (msg : string).

(** A property key computed from a value that may be [undefined]:
    [obj[undefined]] addresses the property named "undefined". *)
Definition property_key (k : option string) : string :=
  match k with Some s => s | None => "undefined" end.

(** [arr.includes(x)] *)
Definition includes (l : list string) (x : string) : bool := bool_decide (x ∈ l).

(** [if (!arr.includes(x)) arr.push(x)] *)
Definition push_new (l : list string) (x : string) : list string :=
  if includes l x then l else l ++ [x].

(** [arr.filter(y => y !== x)] *)
Definition without (x : string) (l : list string) : list string :=
  filter (λ y, y ≠ x) l.

(** ** Rows received from the server *)

Module NoteRow.
Record t := mk { noteId : string; type : string; title : string }.
End NoteRow.

Module BranchRow.
Record t := mk {
  branchId : string;
  noteId : string;
  parentNoteId : string;
  prefix : string;
  notePosition : Z;
  isDeleted : bool
}.
End BranchRow.

Module AttributeRow.
Record t := mk {
  attributeId : string;
  noteId : string;
  type : string;
  name : string;
  value : string;
  isDeleted : bool
}.
End AttributeRow.

(** ** Entities *)

Module NoteShort.
Record t := mk {
  noteId : string;
  type : string;
  title : string;
  parents : list string;
  children : list string;
  parentToBranch : gmap string string;
  childToBranch : gmap string string;
  attributes : list string;
  targetRelations : list string
}.

(** Modelled from the spec: entities/note_short.js is not among the
    sources.  "construct a fresh note object from the row (empty
    adjacency)". *)
Definition new (row : NoteRow.t) : t :=
  {| noteId := NoteRow.noteId row; type := NoteRow.type row;
     title := NoteRow.title row;
     parents := []; children := [];
     parentToBranch := ∅; childToBranch := ∅;
     attributes := []; targetRelations := [] |}.

(** Modelled from the spec: entities/note_short.js is not among the
    sources.  "if resident, mutate fields in place (identity preserved)":
    the row's fields replace the note's, the adjacency and the attribute
    indices stay. *)
Definition update (n : t) (row : NoteRow.t) : t :=
  {| noteId := NoteRow.noteId row; type := NoteRow.type row;
     title := NoteRow.title row;
     parents := parents n; children := children n;
     parentToBranch := parentToBranch n; childToBranch := childToBranch n;
     attributes := attributes n; targetRelations := targetRelations n |}.

(** Modelled from the spec: entities/note_short.js is not among the
    sources.  "add the parent relationship to it": the parent id joins the
    ordered parent list (once) and the mapping parentNoteId→branchId is
    set. *)
Definition addParent (n : t) (parentNoteId branchId : string) : t :=
  {| noteId := noteId n; type := type n; title := title n;
     parents := push_new (parents n) parentNoteId; children := children n;
     parentToBranch := <[parentNoteId := branchId]> (parentToBranch n);
     childToBranch := childToBranch n;
     attributes := attributes n; targetRelations := targetRelations n |}.

(** Modelled from the spec: entities/note_short.js is not among the
    sources.  "add the child relationship to it": the child id joins the
    ordered child list (once) and the mapping childNoteId→branchId is
    set. *)
Definition addChild (n : t) (childNoteId branchId : string) : t :=
  {| noteId := noteId n; type := type n; title := title n;
     parents := parents n; children := push_new (children n) childNoteId;
     parentToBranch := parentToBranch n;
     childToBranch := <[childNoteId := branchId]> (childToBranch n);
     attributes := attributes n; targetRelations := targetRelations n |}.

(** Field assignments of the source, [note.f = v]. *)
Definition set_parents (n : t) (v : list string) : t :=
  {| noteId := noteId n; type := type n; title := title n;
     parents := v; children := children n;
     parentToBranch := parentToBranch n; childToBranch := childToBranch n;
     attributes := attributes n; targetRelations := targetRelations n |}.
Definition set_children (n : t) (v : list string) : t :=
  {| noteId := noteId n; type := type n; title := title n;
     parents := parents n; children := v;
     parentToBranch := parentToBranch n; childToBranch := childToBranch n;
     attributes := attributes n; targetRelations := targetRelations n |}.
Definition set_parentToBranch (n : t) (v : gmap string string) : t :=
  {| noteId := noteId n; type := type n; title := title n;
     parents := parents n; children := children n;
     parentToBranch := v; childToBranch := childToBranch n;
     attributes := attributes n; targetRelations := targetRelations n |}.
Definition set_childToBranch (n : t) (v : gmap string string) : t :=
  {| noteId := noteId n; type := type n; title := title n;
     parents := parents n; children := children n;
     parentToBranch := parentToBranch n; childToBranch := v;
     attributes := attributes n; targetRelations := targetRelations n |}.
Definition set_attributes (n : t) (v : list string) : t :=
  {| noteId := noteId n; type := type n; title := title n;
     parents := parents n; children := children n;
     parentToBranch := parentToBranch n; childToBranch := childToBranch n;
     attributes := v; targetRelations := targetRelations n |}.
Definition set_targetRelations (n : t) (v : list string) : t :=
  {| noteId := noteId n; type := type n; title := title n;
     parents := parents n; children := children n;
     parentToBranch := parentToBranch n; childToBranch := childToBranch n;
     attributes := attributes n; targetRelations := v |}.
End NoteShort.

Module Branch.
Record t := mk {
  branchId : string;
  noteId : string;
  parentNoteId : string;
  prefix : string;
  notePosition : Z;
  isDeleted : bool
}.

(** Modelled from the spec: entities/branch.js is not among the sources.
    "construct/overwrite the Branch entity" from the row. *)
Definition new (row : BranchRow.t) : t :=
  {| branchId := BranchRow.branchId row; noteId := BranchRow.noteId row;
     parentNoteId := BranchRow.parentNoteId row;
     prefix := BranchRow.prefix row;
     notePosition := BranchRow.notePosition row;
     isDeleted := BranchRow.isDeleted row |}.

(** Modelled from the spec: entities/branch.js is not among the sources.
    "resident + not-deleted → update fields". *)
Definition update (b : t) (row : BranchRow.t) : t := new row.

(** [branch.notePosition = v] *)
Definition set_notePosition (b : t) (v : Z) : t :=
  {| branchId := branchId b; noteId := noteId b;
     parentNoteId := parentNoteId b; prefix := prefix b;
     notePosition := v; isDeleted := isDeleted b |}.
End Branch.

Module Attribute.
Record t := mk {
  attributeId : string;
  noteId : string;
  type : string;
  name : string;
  value : string;
  isDeleted : bool
}.

(** Modelled from the spec: entities/attribute.js is not among the
    sources.  "construct/overwrite the Attribute entity" from the row. *)
Definition new (row : AttributeRow.t) : t :=
  {| attributeId := AttributeRow.attributeId row;
     noteId := AttributeRow.noteId row; type := AttributeRow.type row;
     name := AttributeRow.name row; value := AttributeRow.value row;
     isDeleted := AttributeRow.isDeleted row |}.

(** Modelled from the spec: entities/attribute.js is not among the
    sources.  The row's fields replace the attribute's. *)
Definition update (a : t) (row : AttributeRow.t) : t := new row.
End Attribute.

(** ** The cache *)

Record TreeCache := mkTreeCache {
  notes : gmap string NoteShort.t;
  branches : gmap string Branch.t;
  attributes : gmap string Attribute.t;
  (** ids that have a cached (pending or resolved) complement promise *)
  noteComplementPromises : gset string
}.

(** The cache right after [loadInitialTree] has cleared it. *)
Definition emptyCache : TreeCache :=
  {| notes := ∅; branches := ∅; attributes := ∅; noteComplementPromises := ∅ |}.

Definition set_notes (c : TreeCache) (v : gmap string NoteShort.t) : TreeCache :=
  {| notes := v; branches := branches c; attributes := attributes c;
     noteComplementPromises := noteComplementPromises c |}.
Definition set_branches (c : TreeCache) (v : gmap string Branch.t) : TreeCache :=
  {| notes := notes c; branches := v; attributes := attributes c;
     noteComplementPromises := noteComplementPromises c |}.
Definition set_attributes (c : TreeCache) (v : gmap string Attribute.t) : TreeCache :=
  {| notes := notes c; branches := branches c; attributes := v;
     noteComplementPromises := noteComplementPromises c |}.
Definition set_noteComplementPromises (c : TreeCache) (v : gset string) : TreeCache :=
  {| notes := notes c; branches := branches c; attributes := attributes c;
     noteComplementPromises := v |}.

(** In-place mutation of the note object held in slot [noteId]. *)
Definition mutateNote (noteId : string) (f : NoteShort.t → NoteShort.t)
    (c : TreeCache) : TreeCache :=
  set_notes c (alter f noteId (notes c)).

(** A synchronous call either returns, leaving the cache in some state, or
    throws, leaving the cache as mutated up to the throw. *)
Inductive Outcome : Type :=
  | Done (c : TreeCache)
  | Raised (e : JsError) (c : TreeCache).

(** ** addResp *)

(** Body of [for (const childNoteId of oldNote.children)]. *)
Definition detachFromChild (noteId : string) (c : TreeCache)
    (childNoteId : string) : TreeCache :=
  match notes c !! childNoteId with
  | Some childNote =>
      let c1 := mutateNote childNoteId
                  (λ n, NoteShort.set_parents n (without noteId (NoteShort.parents n))) c in
      let c2 := set_branches c1
                  (delete (property_key (NoteShort.parentToBranch childNote !! noteId))
                          (branches c1)) in
      mutateNote childNoteId
        (λ n, NoteShort.set_parentToBranch n (delete noteId (NoteShort.parentToBranch n))) c2
  | None => c
  end.

(** Body of [for (const parentNoteId of oldNote.parents)]. *)
Definition detachFromParent (noteId : string) (c : TreeCache)
    (parentNoteId : string) : TreeCache :=
  match notes c !! parentNoteId with
  | Some parentNote =>
      let c1 := mutateNote parentNoteId
                  (λ n, NoteShort.set_children n (without noteId (NoteShort.children n))) c in
      let c2 := set_branches c1
                  (delete (property_key (NoteShort.childToBranch parentNote !! noteId))
                          (branches c1)) in
      mutateNote parentNoteId
        (λ n, NoteShort.set_childToBranch n (delete noteId (NoteShort.childToBranch n))) c2
  | None => c
  end.

(** [if (oldNote) { ... }]: the two loops run over the arrays the old note
    holds when each loop starts; the first loop may reassign
    [oldNote.parents] (when the note is its own child), so the second list is
    read after the first loop. *)
Definition detachOldNote (noteId : string) (c : TreeCache) : TreeCache :=
  match notes c !! noteId with
  | Some oldNote =>
      let c1 := foldl (detachFromChild noteId) c (NoteShort.children oldNote) in
      match notes c1 !! noteId with
      | Some oldNote1 => foldl (detachFromParent noteId) c1 (NoteShort.parents oldNote1)
      | None => c1
      end
  | None => c
  end.

(** Body of [for (const noteRow of noteRows)]. *)
Definition addNoteRow (c : TreeCache) (noteRow : NoteRow.t) : TreeCache :=
  let noteId := NoteRow.noteId noteRow in
  let c1 := detachOldNote noteId c in
  let note := NoteShort.new noteRow in
  set_notes c1 (<[NoteShort.noteId note := note]> (notes c1)).

(** Body of [for (const branchRow of branchRows)]. *)
Definition addBranchRow (c : TreeCache) (branchRow : BranchRow.t) : TreeCache :=
  let branch := Branch.new branchRow in
  let c1 := set_branches c (<[Branch.branchId branch := branch]> (branches c)) in
  let c2 :=
    match notes c1 !! Branch.noteId branch with
    | Some _ =>
        mutateNote (Branch.noteId branch)
          (λ n, NoteShort.addParent n (Branch.parentNoteId branch) (Branch.branchId branch)) c1
    | None => c1
    end in
  match notes c2 !! Branch.parentNoteId branch with
  | Some _ =>
      mutateNote (Branch.parentNoteId branch)
        (λ n, NoteShort.addChild n (Branch.noteId branch) (Branch.branchId branch)) c2
  | None => c2
  end.

(** Body of [for (const attributeRow of attributeRows)].  [note] is
    [this.notes[attributeRow.noteId]]; reading [note.attributes] of an
    absent note throws. *)
Definition addAttributeRow (c : TreeCache) (attributeRow : AttributeRow.t) : Outcome :=
  let attributeId := AttributeRow.attributeId attributeRow in
  let c1 := set_attributes c (<[attributeId := Attribute.new attributeRow]> (attributes c)) in
  match notes c1 !! AttributeRow.noteId attributeRow with
  | None => Raised (TypeError "Cannot read property 'attributes' of undefined") c1
  | Some _ =>
      let c2 := mutateNote (AttributeRow.noteId attributeRow)
                  (λ n, NoteShort.set_attributes n
                          (push_new (NoteShort.attributes n) attributeId)) c1 in
      if String.eqb (AttributeRow.type attributeRow) "relation" then
        match notes c2 !! AttributeRow.value attributeRow with
        | Some _ =>
            Done (mutateNote (AttributeRow.noteId attributeRow)
                    (λ n, NoteShort.set_targetRelations n
                            (push_new (NoteShort.targetRelations n) attributeId)) c2)
        | None => Done c2
        end
      else Done c2
  end.

(** A [for] loop whose body may throw. *)
Fixpoint forEachRaising {A} (body : TreeCache → A → Outcome) (c : TreeCache)
    (l : list A) : Outcome :=
  match l with
  | [] => Done c
  | x :: l' =>
      match body c x with
      | Done c' => forEachRaising body c' l'
      | Raised e c' => Raised e c'
      end
  end.

Definition addResp (noteRows : list NoteRow.t) (branchRows : list BranchRow.t)
    (attributeRows : list AttributeRow.t) (c : TreeCache) : Outcome :=
  let c1 := foldl addNoteRow c noteRows in
  let c2 := foldl addBranchRow c1 branchRows in
  forEachRaising addAttributeRow c2 attributeRows.

(** ** Branch lookups *)

(** What the cache does to the outside world, in the order it happens. *)
Inductive Effect : Type :=
  | ServerPost (url : string) (noteIds : list string)
  | ServerGet (url : string)
  | ConsoleLog (msg : string)
  | ConsoleError (msg : string).

(** [getBranch]: the first branch of the [if] has no [return], so the call
    evaluates to [undefined] there. *)
Definition getBranch (c : TreeCache) (branchId : string) (silentNotFoundError : bool)
    : jsval Branch.t * list Effect :=
  match branches c !! branchId with
  | None =>
      (JsUndefined,
       if silentNotFoundError then []
       else [ConsoleError ("Not existing branch " +:+ branchId)])
  | Some b => (JsObject b, [])
  end.

Definition getBranches (c : TreeCache) (branchIds : list string)
    : list (jsval Branch.t) * list Effect :=
  let found := map (λ branchId, getBranch c branchId false) branchIds in
  (List.filter strict_ne_null (map fst found), concat (map snd found)).

Definition getNoteFromCache (c : TreeCache) (noteId : string) : option NoteShort.t :=
  notes c !! noteId.

(** ** Lazy loader *)

Module TreeResp.
Record t := mk {
  notes : list NoteRow.t;
  branches : list BranchRow.t;
  attributes : list AttributeRow.t
}.
End TreeResp.

Module SearchResult.
Record t := mk { noteId : string; branchId : string }.
End SearchResult.

(** The cache together with the effects performed so far. *)
Record World := mkWorld { cache : TreeCache; effects : list Effect }.

Definition perform (es : list Effect) (w : World) : World :=
  {| cache := cache w; effects := effects w ++ es |}.
Definition with_cache (w : World) (c : TreeCache) : World :=
  {| cache := c; effects := effects w |}.

(** An asynchronous call resolves, rejects, or (when the model's fuel runs
    out) is not known to settle. *)
Inductive Settled (A : Type) : Type :=
  | Resolved (a : A) (w : World)
  | Rejected (e : JsError) (w : World)
  | Unsettled.
Arguments Resolved {A} a w.
Arguments Rejected {A} e w.
Arguments Unsettled {A}.

(** [Array.from(new Set(noteIds))]: first occurrences, in order. *)
Fixpoint unique_from (seen : list string) (l : list string) : list string :=
  match l with
  | [] => []
  | x :: l' =>
      if includes seen x then unique_from seen l'
      else x :: unique_from (seen ++ [x]) l'
  end.
Definition unique (l : list string) : list string := unique_from [] l.

(** ["virt" + result.noteId + '-' + note.noteId] *)
Definition virtualBranchId (resultNoteId searchNoteId : string) : string :=
  "virt" +:+ resultNoteId +:+ "-" +:+ searchNoteId.

(** One call of the [searchResults.forEach] callback: the row pushed for
    [result] at [index].  [this.getBranch(result.branchId).prefix] throws
    when the branch is not in the cache. *)
Definition virtualBranch (c : TreeCache) (note : NoteRow.t) (index : nat)
    (result : SearchResult.t) : (BranchRow.t + JsError) * list Effect :=
  let '(found, es) := getBranch c (SearchResult.branchId result) false in
  match found with
  | JsObject b =>
      (inl {| BranchRow.branchId :=
                virtualBranchId (SearchResult.noteId result) (NoteRow.noteId note);
              BranchRow.noteId := SearchResult.noteId result;
              BranchRow.parentNoteId := NoteRow.noteId note;
              BranchRow.prefix := Branch.prefix b;
              BranchRow.notePosition := (Z.of_nat index + 1) * 10;
              BranchRow.isDeleted := false |}, es)
  | _ => (inr (TypeError "Cannot read property 'prefix' of undefined"), es)
  end.

(** [searchResults.forEach((result, index) => branches.push({...}))],
    starting at [index]; the rows pushed, or the error thrown on the way. *)
Fixpoint virtualBranchesFrom (c : TreeCache) (note : NoteRow.t) (index : nat)
    (searchResults : list SearchResult.t) : (list BranchRow.t + JsError) * list Effect :=
  match searchResults with
  | [] => (inl [], [])
  | result :: rest =>
      match virtualBranch c note index result with
      | (inl row, es) =>
          match virtualBranchesFrom c note (S index) rest with
          | (inl rows, es') => (inl (row :: rows), es ++ es')
          | (inr e, es') => (inr e, es ++ es')
          end
      | (inr e, es) => (inr e, es)
      end
  end.

Definition virtualBranches (c : TreeCache) (note : NoteRow.t)
    (searchResults : list SearchResult.t) : (list BranchRow.t + JsError) * list Effect :=
  virtualBranchesFrom c note 0 searchResults.

(** A [for] loop with [await] in its body. *)
Fixpoint forEachAsync {A} (body : A → World → Settled unit) (l : list A)
    (w : World) : Settled unit :=
  match l with
  | [] => Resolved tt w
  | x :: l' =>
      match body x w with
      | Resolved _ w' => forEachAsync body l' w'
      | Rejected e w' => Rejected e w'
      | Unsettled => Unsettled
      end
  end.

(** The mapping callback of [getNotes].  (The logged message is the
    source's without the quotation marks around the id.) *)
Definition lookupNote (c : TreeCache) (silentNotFoundError : bool) (noteId : string)
    : jsval NoteShort.t * list Effect :=
  match notes c !! noteId with
  | None =>
      if silentNotFoundError then (JsUndefined, [])
      else (JsNull, [ConsoleLog ("Can't find note " +:+ noteId)])
  | Some n => (JsObject n, [])
  end.

Section Loader.
(** The server: what [tree/load] and [search-note/<id>] answer, given the
    effects performed so far.  A falsy search answer is [None]. *)
Variable server_tree_load : list Effect → list string → TreeResp.t.
Variable server_search_note : list Effect → string → option (list SearchResult.t).

(** [getNotes], given the [reloadNotes] it calls. *)
Definition getNotesWith (reload : list string → World → Settled unit)
    (noteIds : list string) (silentNotFoundError : bool) (w : World)
    : Settled (list (jsval NoteShort.t)) :=
  let missingNoteIds :=
    List.filter (λ noteId, negb (bool_decide (is_Some (notes (cache w) !! noteId)))) noteIds in
  match reload missingNoteIds w with
  | Resolved _ w1 =>
      let found := map (lookupNote (cache w1) silentNotFoundError) noteIds in
      Resolved (List.filter truthy (map fst found)) (perform (concat (map snd found)) w1)
  | Rejected e w1 => Rejected e w1
  | Unsettled => Unsettled
  end.

(** Body of [for (const note of resp.notes)] in [reloadNotes]. *)
Definition reloadSearchNote (reload : list string → World → Settled unit)
    (resp : TreeResp.t) (note : NoteRow.t) (w : World) : Settled unit :=
  if String.eqb (NoteRow.type note) "search" then
    let url := "search-note/" +:+ NoteRow.noteId note in
    let answer := server_search_note (effects w) (NoteRow.noteId note) in
    let w1 := perform [ServerGet url] w in
    match answer with
    | None => Rejected (Error ("Search note " +:+ NoteRow.noteId note +:+ " failed.")) w1
    | Some searchResults =>
        match getNotesWith reload (map SearchResult.noteId searchResults) false w1 with
        | Resolved _ w2 =>
            let stored :=
              List.filter
                (λ b, String.eqb (BranchRow.noteId b) (NoteRow.noteId note)
                      || String.eqb (BranchRow.parentNoteId b) (NoteRow.noteId note))
                (TreeResp.branches resp) in
            match virtualBranches (cache w2) note searchResults with
            | (inl virtuals, es) =>
                let w3 := perform es w2 in
                match addResp [note] (stored ++ virtuals) [] (cache w3) with
                | Done c => Resolved tt (with_cache w3 c)
                | Raised e c => Rejected e (with_cache w3 c)
                end
            | (inr e, es) => Rejected e (perform es w2)
            end
        | Rejected e w2 => Rejected e w2
        | Unsettled => Unsettled
        end
    end
  else Resolved tt w.

(** [reloadNotes]; a search note among the answers reloads its results
    through [getNotes], which the fuel bounds. *)
Fixpoint reloadNotes (fuel : nat) (noteIds : list string) (w : World)
    {struct fuel} : Settled unit :=
  match noteIds with
  | [] => Resolved tt w
  | _ :: _ =>
      match fuel with
      | O => Unsettled
      | S fuel' =>
          let noteIds := unique noteIds in
          let resp := server_tree_load (effects w) noteIds in
          let w1 := perform [ServerPost "tree/load" noteIds] w in
          match addResp (TreeResp.notes resp) (TreeResp.branches resp)
                        (TreeResp.attributes resp) (cache w1) with
          | Done c =>
              forEachAsync (reloadSearchNote (reloadNotes fuel') resp)
                           (TreeResp.notes resp) (with_cache w1 c)
          | Raised e c => Rejected e (with_cache w1 c)
          end
      end
  end.

Definition getNotes (fuel : nat) (noteIds : list string)
    (silentNotFoundError : bool) (w : World) : Settled (list (jsval NoteShort.t)) :=
  getNotesWith (reloadNotes fuel) noteIds silentNotFoundError w.


(** [getNote].  The id is a string here, so the only falsy id is the empty
    one.  [(await this.getNotes(...))[0]] is [undefined] when the list is
    empty. *)
Definition getNote (fuel : nat) (noteId : string) (silentNotFoundError : bool)
    (w : World) : Settled (jsval NoteShort.t) :=
  if String.eqb noteId "none" then
    Resolved JsNull (perform [ConsoleLog "No 'none' note."] w)
  else if String.eqb noteId "" then
    Resolved JsNull
      (perform [ConsoleLog ("Falsy noteId " +:+ noteId +:+ ", returning null.")] w)
  else
    match getNotes fuel [noteId] silentNotFoundError w with
    | Resolved found w' =>
        Resolved (match found with [] => JsUndefined | v :: _ => v end) w'
    | Rejected e w' => Rejected e w'
    | Unsettled => Unsettled
    end.

(** [getBranchId]: [child.parentToBranch[parentNoteId]], [None] standing for
    [undefined]; reading the property of a [null] or [undefined] child
    throws. *)
Definition getBranchId (fuel : nat) (parentNoteId childNoteId : string) (w : World)
    : Settled (option string) :=
  match getNote fuel childNoteId false w with
  | Resolved (JsObject child) w' =>
      Resolved (NoteShort.parentToBranch child !! parentNoteId) w'
  | Resolved JsNull w' =>
      Rejected (TypeError "Cannot read property 'parentToBranch' of null") w'
  | Resolved JsUndefined w' =>
      Rejected (TypeError "Cannot read property 'parentToBranch' of undefined") w'
  | Rejected e w' => Rejected e w'
  | Unsettled => Unsettled
  end.
End Loader.

Section InitialTree.
(** The server's answer to [server.get('tree')], given the effects performed
    so far. *)
Variable server_tree : list Effect → TreeResp.t.

(** [loadInitialTree]: the four stores are emptied after the answer has
    arrived and right before it is merged. *)
Definition loadInitialTree (w : World) : Settled unit :=
  let resp := server_tree (effects w) in
  let w1 := perform [ServerGet "tree"] w in
  match addResp (TreeResp.notes resp) (TreeResp.branches resp)
                (TreeResp.attributes resp) emptyCache with
  | Done c => Resolved tt (with_cache w1 c)
  | Raised e c => Rejected e (with_cache w1 c)
  end.
End InitialTree.

(** ** Sync reconciler *)

Module LoadResults.
(** Modelled from the spec: services/load_results.js is not among the
    sources.  The change-set is "a mapping from entity-kind to list of
    {entityId, sourceId}"; every [add...] call records one entry of its
    kind, in call order. *)
Record t := mk {
  notes : list (string * string);
  branches : list (string * string);
  noteReorderings : list (string * string);
  attributes : list (string * string);
  noteContents : list (string * string);
  noteRevisions : list (string * string * string)
}.

Definition new : t :=
  {| notes := []; branches := []; noteReorderings := []; attributes := [];
     noteContents := []; noteRevisions := [] |}.

Definition addNote (lr : t) (entityId sourceId : string) : t :=
  {| notes := notes lr ++ [(entityId, sourceId)]; branches := branches lr;
     noteReorderings := noteReorderings lr; attributes := attributes lr;
     noteContents := noteContents lr; noteRevisions := noteRevisions lr |}.
Definition addBranch (lr : t) (entityId sourceId : string) : t :=
  {| notes := notes lr; branches := branches lr ++ [(entityId, sourceId)];
     noteReorderings := noteReorderings lr; attributes := attributes lr;
     noteContents := noteContents lr; noteRevisions := noteRevisions lr |}.
Definition addNoteReordering (lr : t) (entityId sourceId : string) : t :=
  {| notes := notes lr; branches := branches lr;
     noteReorderings := noteReorderings lr ++ [(entityId, sourceId)];
     attributes := attributes lr;
     noteContents := noteContents lr; noteRevisions := noteRevisions lr |}.
Definition addAttribute (lr : t) (entityId sourceId : string) : t :=
  {| notes := notes lr; branches := branches lr;
     noteReorderings := noteReorderings lr;
     attributes := attributes lr ++ [(entityId, sourceId)];
     noteContents := noteContents lr; noteRevisions := noteRevisions lr |}.
Definition addNoteContent (lr : t) (entityId sourceId : string) : t :=
  {| notes := notes lr; branches := branches lr;
     noteReorderings := noteReorderings lr; attributes := attributes lr;
     noteContents := noteContents lr ++ [(entityId, sourceId)];
     noteRevisions := noteRevisions lr |}.
Definition addNoteRevision (lr : t) (entityId noteId sourceId : string) : t :=
  {| notes := notes lr; branches := branches lr;
     noteReorderings := noteReorderings lr; attributes := attributes lr;
     noteContents := noteContents lr;
     noteRevisions := noteRevisions lr ++ [(entityId, noteId, sourceId)] |}.
End LoadResults.

Module SyncRow.
(** One row of the sync feed.  The payload depends on the kind of entity:
    [entity] for notes, branches and attributes, [positions] (the own
    properties of the object, in enumeration order) for a reordering,
    [noteId] for a note revision.  [Other] is a row of any other entity
    kind. *)
Inductive t : Type :=
  | Notes (entityId sourceId : string) (entity : NoteRow.t)
  | Branches (entityId sourceId : string) (entity : BranchRow.t)
  | NoteReordering (entityId sourceId : string) (positions : list (string * Z))
  | Attributes (entityId sourceId : string) (entity : AttributeRow.t)
  | NoteContents (entityId sourceId : string)
  | NoteRevisions (entityId noteId sourceId : string)
  | Other (entityName entityId sourceId : string).

Definition entityName (sync : t) : string :=
  match sync with
  | Notes _ _ _ => "notes"
  | Branches _ _ _ => "branches"
  | NoteReordering _ _ _ => "note_reordering"
  | Attributes _ _ _ => "attributes"
  | NoteContents _ _ => "note_contents"
  | NoteRevisions _ _ _ => "note_revisions"
  | Other name _ _ => name
  end.
End SyncRow.

(** [syncRows.filter(sync => sync.entityName === name)] *)
Definition ofKind (name : string) (syncRows : list SyncRow.t) : list SyncRow.t :=
  List.filter (λ sync, String.eqb (SyncRow.entityName sync) name) syncRows.

(** The state a reconciliation pass threads through its callbacks: the cache
    and the change-set being collected. *)
Definition SyncState : Type := TreeCache * LoadResults.t.

(** Callback of the ['notes'] pass. *)
Definition syncNote (st : SyncState) (sync : SyncRow.t) : SyncState :=
  match sync with
  | SyncRow.Notes entityId sourceId entity =>
      let '(c, lr) := st in
      match notes c !! entityId with
      | Some _ =>
          (mutateNote entityId (λ n, NoteShort.update n entity) c,
           LoadResults.addNote lr entityId sourceId)
      | None => st
      end
  | _ => st
  end.

(** [childNote.parents = childNote.parents.filter(...); delete
    childNote.parentToBranch[...]] *)
Definition dropParent (parentNoteId : string) (n : NoteShort.t) : NoteShort.t :=
  NoteShort.set_parentToBranch
    (NoteShort.set_parents n (without parentNoteId (NoteShort.parents n)))
    (delete parentNoteId (NoteShort.parentToBranch n)).

(** [parentNote.children = parentNote.children.filter(...); delete
    parentNote.childToBranch[...]] *)
Definition dropChild (childNoteId : string) (n : NoteShort.t) : NoteShort.t :=
  NoteShort.set_childToBranch
    (NoteShort.set_children n (without childNoteId (NoteShort.children n)))
    (delete childNoteId (NoteShort.childToBranch n)).

(** [if (note) note.m(...)], for the note held in slot [noteId] when the
    callback started. *)
Definition whenResident (resident : bool) (noteId : string)
    (f : NoteShort.t → NoteShort.t) (c : TreeCache) : TreeCache :=
  if resident then mutateNote noteId f c else c.

Definition isResident (c : TreeCache) (noteId : string) : bool :=
  bool_decide (is_Some (notes c !! noteId)).

(** Callback of the ['branches'] pass. *)
Definition syncBranch (st : SyncState) (sync : SyncRow.t) : SyncState :=
  match sync with
  | SyncRow.Branches entityId sourceId entity =>
      let '(c, lr) := st in
      let childNote := isResident c (BranchRow.noteId entity) in
      let parentNote := isResident c (BranchRow.parentNoteId entity) in
      match branches c !! entityId with
      | Some branch =>
          if BranchRow.isDeleted entity then
            let c1 := whenResident childNote (BranchRow.noteId entity)
                        (dropParent (BranchRow.parentNoteId entity)) c in
            let c2 := whenResident parentNote (BranchRow.parentNoteId entity)
                        (dropChild (BranchRow.noteId entity)) c1 in
            (c2, lr)
          else
            let branch := Branch.update branch entity in
            let c1 := set_branches c (<[entityId := branch]> (branches c)) in
            let lr1 := LoadResults.addBranch lr entityId sourceId in
            let c2 := whenResident childNote (BranchRow.noteId entity)
                        (λ n, NoteShort.addParent n (Branch.parentNoteId branch)
                                                   (Branch.branchId branch)) c1 in
            let c3 := whenResident parentNote (BranchRow.parentNoteId entity)
                        (λ n, NoteShort.addChild n (Branch.noteId branch)
                                                  (Branch.branchId branch)) c2 in
            (c3, lr1)
      | None =>
          if negb (BranchRow.isDeleted entity) then
            if childNote || parentNote then
              let branch := Branch.new entity in
              let c1 := set_branches c (<[Branch.branchId branch := branch]> (branches c)) in
              let lr1 := LoadResults.addBranch lr entityId sourceId in
              let c2 := whenResident childNote (BranchRow.noteId entity)
                          (λ n, NoteShort.addParent n (Branch.parentNoteId branch)
                                                     (Branch.branchId branch)) c1 in
              let c3 := whenResident parentNote (BranchRow.parentNoteId entity)
                          (λ n, NoteShort.addChild n (Branch.noteId branch)
                                                    (Branch.branchId branch)) c2 in
              (c3, lr1)
            else st
          else st
      end
  | _ => st
  end.

(** Body of [for (const branchId in sync.positions)]. *)
Definition applyPosition (c : TreeCache) (entry : string * Z) : TreeCache :=
  let '(branchId, position) := entry in
  match branches c !! branchId with
  | Some _ =>
      set_branches c (alter (λ b, Branch.set_notePosition b position) branchId (branches c))
  | None => c
  end.

(** Callback of the ['note_reordering'] pass. *)
Definition syncNoteReordering (st : SyncState) (sync : SyncRow.t) : SyncState :=
  match sync with
  | SyncRow.NoteReordering entityId sourceId positions =>
      let '(c, lr) := st in
      (foldl applyPosition c positions,
       LoadResults.addNoteReordering lr entityId sourceId)
  | _ => st
  end.

(** Callback of the ['attributes'] pass.  [targetNote] is
    [sync.entity.type === 'relation' && this.notes[sync.entity.value]]. *)
Definition syncAttribute (st : SyncState) (sync : SyncRow.t) : SyncState :=
  match sync with
  | SyncRow.Attributes entityId sourceId entity =>
      let '(c, lr) := st in
      let sourceNote := isResident c (AttributeRow.noteId entity) in
      let targetNote :=
        String.eqb (AttributeRow.type entity) "relation"
        && isResident c (AttributeRow.value entity) in
      match attributes c !! entityId with
      | Some attribute =>
          let attribute := Attribute.update attribute entity in
          let c1 := set_attributes c (<[entityId := attribute]> (attributes c)) in
          let lr1 := LoadResults.addAttribute lr entityId sourceId in
          if AttributeRow.isDeleted entity then
            let c2 := whenResident sourceNote (AttributeRow.noteId entity)
                        (λ n, NoteShort.set_attributes n
                                (without (Attribute.attributeId attribute)
                                         (NoteShort.attributes n))) c1 in
            let c3 := whenResident targetNote (AttributeRow.value entity)
                        (λ n, NoteShort.set_targetRelations n
                                (without (Attribute.value attribute)
                                         (NoteShort.targetRelations n))) c2 in
            (c3, lr1)
          else (c1, lr1)
      | None =>
          if negb (AttributeRow.isDeleted entity) then
            if sourceNote || targetNote then
              let attribute := Attribute.new entity in
              let c1 := set_attributes c
                          (<[Attribute.attributeId attribute := attribute]> (attributes c)) in
              let lr1 := LoadResults.addAttribute lr entityId sourceId in
              let c2 := whenResident sourceNote (AttributeRow.noteId entity)
                          (λ n, NoteShort.set_attributes n
                                  (push_new (NoteShort.attributes n)
                                            (Attribute.attributeId attribute))) c1 in
              let c3 := whenResident targetNote (AttributeRow.value entity)
                          (λ n, NoteShort.set_attributes n
                                  (push_new (NoteShort.attributes n)
                                            (Attribute.attributeId attribute))) c2 in
              (c3, lr1)
            else st
          else st
      end
  | _ => st
  end.

(** Callback of the ['note_contents'] pass. *)
Definition syncNoteContent (st : SyncState) (sync : SyncRow.t) : SyncState :=
  match sync with
  | SyncRow.NoteContents entityId sourceId =>
      let '(c, lr) := st in
      (set_noteComplementPromises c (noteComplementPromises c ∖ {[entityId]}),
       LoadResults.addNoteContent lr entityId sourceId)
  | _ => st
  end.

(** Callback of the ['note_revisions'] pass. *)
Definition syncNoteRevision (st : SyncState) (sync : SyncRow.t) : SyncState :=
  match sync with
  | SyncRow.NoteRevisions entityId noteId sourceId =>
      let '(c, lr) := st in
      (c, LoadResults.addNoteRevision lr entityId noteId sourceId)
  | _ => st
  end.

(** [processSyncRows]: the cache after the six passes, and the change-set
    handed to [appContext.trigger('entitiesReloaded', {loadResults})]. *)
Definition processSyncRows (syncRows : list SyncRow.t) (c : TreeCache) : SyncState :=
  let st0 := (c, LoadResults.new) in
  let st1 := foldl syncNote st0 (ofKind "notes" syncRows) in
  let st2 := foldl syncBranch st1 (ofKind "branches" syncRows) in
  let st3 := foldl syncNoteReordering st2 (ofKind "note_reordering" syncRows) in
  let st4 := foldl syncAttribute st3 (ofKind "attributes" syncRows) in
  let st5 := foldl syncNoteContent st4 (ofKind "note_contents" syncRows) in
  foldl syncNoteRevision st5 (ofKind "note_revisions" syncRows).

(** ** Script context (services/script_context.js) *)

Module ScriptContext.
(** A note as [ScriptContext] reads it. *)
Record Note := mkNote { noteId : string; title : string }.

Section Require.
(** What a module exports. *)
Variable Exports : Type.

(** [this.require(moduleNoteIds)(moduleName)], for the notes [allNotes] the
    context was built from and the table [this.modules] (module note id to
    its exports).  [this.modules[id].exports] throws when the table has no
    entry for the id. *)
Definition require (allNotes : list Note) (modules : gmap string Exports)
    (moduleNoteIds : list string) (moduleName : string) : Exports + JsError :=
  let candidates := List.filter (λ note, includes moduleNoteIds (noteId note)) allNotes in
  match List.find (λ c, String.eqb (title c) moduleName) candidates with
  | None => inr (Error ("Could not find module note " +:+ moduleName))
  | Some note =>
      match modules !! noteId note with
      | Some exports => inl exports
      | None => inr (TypeError "Cannot read property 'exports' of undefined")
      end
  end.
End Require.
End ScriptContext.

(** * Vocabulary of the properties *)

(** ** Outcomes *)

(** The cache a synchronous call leaves behind, however it ended. *)
Definition outcomeCache (o : Outcome) : TreeCache :=
  match o with Done c => c | Raised _ c => c end.


(** ** Rows and caches used as examples *)

(** A note row of type text, titled as its id. *)
Definition textNote (noteId : string) : NoteRow.t :=
  {| NoteRow.noteId := noteId; NoteRow.type := "text"; NoteRow.title := noteId |}.

(** A branch row from [parentNoteId] to [childNoteId], at position 10. *)
Definition edge (branchId childNoteId parentNoteId : string) (deleted : bool) : BranchRow.t :=
  {| BranchRow.branchId := branchId; BranchRow.noteId := childNoteId;
     BranchRow.parentNoteId := parentNoteId; BranchRow.prefix := "";
     BranchRow.notePosition := 10; BranchRow.isDeleted := deleted |}.

(** A relation row of [ownerNoteId] that targets [targetNoteId]. *)
Definition relation (attributeId ownerNoteId targetNoteId : string) (deleted : bool)
    : AttributeRow.t :=
  {| AttributeRow.attributeId := attributeId; AttributeRow.noteId := ownerNoteId;
     AttributeRow.type := "relation"; AttributeRow.name := "link";
     AttributeRow.value := targetNoteId; AttributeRow.isDeleted := deleted |}.

(** A label row of [ownerNoteId]. *)
Definition label (attributeId ownerNoteId : string) : AttributeRow.t :=
  {| AttributeRow.attributeId := attributeId; AttributeRow.noteId := ownerNoteId;
     AttributeRow.type := "label"; AttributeRow.name := "tag";
     AttributeRow.value := "v"; AttributeRow.isDeleted := false |}.

(** A search note S whose one result is the note C, reached by branch b. *)
Definition searchNote : NoteRow.t :=
  {| NoteRow.noteId := "S"; NoteRow.type := "search"; NoteRow.title := "S" |}.

(** Notes P and C with the branch b from P to C, loaded by one merge. *)
Definition parentAndChild : TreeCache :=
  outcomeCache (addResp [textNote "P"; textNote "C"] [edge "b" "C" "P" false] [] emptyCache).

(** A cache in which the target B already lists the relation a1 of A. *)
Definition relationIndexed : TreeCache :=
  let c := outcomeCache (addResp [textNote "A"; textNote "B"] [] [relation "a1" "A" "B" false]
                                 emptyCache) in
  mutateNote "B" (λ n, NoteShort.set_targetRelations n ["a1"]) c.


(** A server that answers every request with nothing. *)
Definition silentServerLoad (_ : list Effect) (_ : list string) : TreeResp.t :=
  {| TreeResp.notes := []; TreeResp.branches := []; TreeResp.attributes := [] |}.

(** ... and fails every search. *)
Definition silentServerSearch (_ : list Effect) (_ : string) : option (list SearchResult.t) :=
  None.

(** A server that answers a load with one text note for each id asked. *)
Definition textServerLoad (_ : list Effect) (noteIds : list string) : TreeResp.t :=
  {| TreeResp.notes := map textNote noteIds; TreeResp.branches := [];
     TreeResp.attributes := [] |}.

(** A server that answers every load with the search note S. *)
Definition searchServerLoad (_ : list Effect) (_ : list string) : TreeResp.t :=
  {| TreeResp.notes := [searchNote]; TreeResp.branches := []; TreeResp.attributes := [] |}.

(** The world that holds [parentAndChild] and has done nothing yet. *)
Definition parentAndChildWorld : World := {| cache := parentAndChild; effects := [] |}.

(** ** What a sync batch leaves *)

(** The change-set entry a branch event can contribute: none for a
    deletion. *)
Definition liveBranchEntry (sync : SyncRow.t) : option (string * string) :=
  match sync with
  | SyncRow.Branches entityId sourceId entity =>
      if BranchRow.isDeleted entity then None else Some (entityId, sourceId)
  | _ => None
  end.


(** ** The loops of the merge, seen from one slot *)

(** What one branch row does to the note held in slot [k]. *)
Definition wireNote (row : BranchRow.t) (k : string) (n : NoteShort.t) : NoteShort.t :=
  let n1 :=
    if decide (BranchRow.noteId row = k)
    then NoteShort.addParent n (BranchRow.parentNoteId row) (BranchRow.branchId row)
    else n in
  if decide (BranchRow.parentNoteId row = k)
  then NoteShort.addChild n1 (BranchRow.noteId row) (BranchRow.branchId row)
  else n1.

(** All the branch rows, for the note of slot [k]. *)
Definition wireAll (rows : list BranchRow.t) (k : string) (n : NoteShort.t) : NoteShort.t :=
  foldl (λ n' row, wireNote row k n') n rows.

(** The old note [M] as the second loop of [detachOldNote] finds it. *)
Definition afterChildren (M : string) (old : NoteShort.t) : NoteShort.t :=
  if decide (M ∈ NoteShort.children old) then dropParent M old else old.

(** What replacing the resident note [old] of slot [M] does to the note of
    another slot [k]. *)
Definition detachedNote (M : string) (old : NoteShort.t) (k : string)
    (n : NoteShort.t) : NoteShort.t :=
  let n1 := if decide (k ∈ NoteShort.children old) then dropParent M n else n in
  if decide (k ∈ NoteShort.parents (afterChildren M old)) then dropChild M n1 else n1.

(** The last row for [k] among [rows], or [row0] when there is none. *)
Definition lastNoteRow (rows : list NoteRow.t) (k : string) (row0 : NoteRow.t) : NoteRow.t :=
  foldl (λ acc row, if decide (NoteRow.noteId row = k) then row else acc) row0 rows.

(** The cache an attribute row leaves when its owner is resident. *)
Definition attributed (c : TreeCache) (row : AttributeRow.t) : TreeCache :=
  let attributeId := AttributeRow.attributeId row in
  let c1 := set_attributes c (<[attributeId := Attribute.new row]> (attributes c)) in
  let c2 := mutateNote (AttributeRow.noteId row)
              (λ n, NoteShort.set_attributes n (push_new (NoteShort.attributes n) attributeId))
              c1 in
  if String.eqb (AttributeRow.type row) "relation" && isResident c (AttributeRow.value row)
  then mutateNote (AttributeRow.noteId row)
         (λ n, NoteShort.set_targetRelations n
                 (push_new (NoteShort.targetRelations n) attributeId)) c2
  else c2.

(** What an attribute row does to the note of slot [k]; [targetResident]
    tells whether the target of the row is resident. *)
Definition attrNote (targetResident : bool) (row : AttributeRow.t) (k : string)
    (n : NoteShort.t) : NoteShort.t :=
  if decide (AttributeRow.noteId row = k) then
    let attributeId := AttributeRow.attributeId row in
    let n1 := NoteShort.set_attributes n (push_new (NoteShort.attributes n) attributeId) in
    if String.eqb (AttributeRow.type row) "relation" && targetResident
    then NoteShort.set_targetRelations n1 (push_new (NoteShort.targetRelations n1) attributeId)
    else n1
  else n.

(** All the attribute rows, for the note of slot [k]. *)
Definition attrAll (res : string → bool) (rows : list AttributeRow.t) (k : string)
    (n : NoteShort.t) : NoteShort.t :=
  foldl (λ n' row, attrNote (res (AttributeRow.value row)) row k n') n rows.

(** Appending the ids of the rows selected by [P], each once. *)
Definition pushOwned (P : AttributeRow.t → bool) (rows : list AttributeRow.t)
    (l : list string) : list string :=
  foldl (λ l' row, if P row then push_new l' (AttributeRow.attributeId row) else l') l rows.

(** [for (row of rows) store[key(row)] = val(row)] *)
Definition insertAll {A V} (key : A → string) (val : A → V) (rows : list A)
    (m : gmap string V) : gmap string V :=
  foldl (λ m' row, <[key row := val row]> m') m rows.

(** ** The cache while a batch is merged again *)

(** Some row of the list is a branch from [parentNoteId] to [childNoteId]. *)
Definition hasRow (rows : list BranchRow.t) (childNoteId parentNoteId : string) : Prop :=
  ∃ r, r ∈ rows ∧ BranchRow.noteId r = childNoteId ∧ BranchRow.parentNoteId r = parentNoteId.

(** Some row of the list has this branch id. *)
Definition hasBranchId (rows : list BranchRow.t) (branchId : string) : Prop :=
  branchId ∈ map BranchRow.branchId rows.




(** Two caches whose notes have the same adjacency, slot by slot. *)
Definition sameAdjacency (c c' : TreeCache) : Prop :=
  ∀ k, match notes c !! k, notes c' !! k with
       | Some n, Some n' =>
           NoteShort.parents n = NoteShort.parents n'
           ∧ NoteShort.children n = NoteShort.children n'
           ∧ NoteShort.parentToBranch n = NoteShort.parentToBranch n'
           ∧ NoteShort.childToBranch n = NoteShort.childToBranch n'
       | None, None => True
       | _, _ => False
       end.

(** The adjacency part of [agree]. *)
Definition agreeAdj (rows : list BranchRow.t) (k : string) (n n1 : NoteShort.t) : Prop :=
  (∀ x, (x ∈ NoteShort.parents n ↔ x ∈ NoteShort.parents n1) ∨ hasRow rows k x)
  ∧ (∀ x, NoteShort.parentToBranch n !! x = NoteShort.parentToBranch n1 !! x
          ∨ hasRow rows k x)
  ∧ (∀ x, (x ∈ NoteShort.children n ↔ x ∈ NoteShort.children n1) ∨ hasRow rows x k)
  ∧ (∀ x, NoteShort.childToBranch n !! x = NoteShort.childToBranch n1 !! x
          ∨ hasRow rows x k).



(** ** The same graph *)





(** ** What a sync batch reports and touches *)

(** The change-set entry of a note event: none when the note is not
    resident in [c]. *)
Definition residentNoteEntry (c : TreeCache) (sync : SyncRow.t) : option (string * string) :=
  match sync with
  | SyncRow.Notes entityId sourceId _ =>
      if isResident c entityId then Some (entityId, sourceId) else None
  | _ => None
  end.

(** The change-set entries of reordering, note-content and note-revision
    events. *)
Definition reorderingEntry (sync : SyncRow.t) : option (string * string) :=
  match sync with
  | SyncRow.NoteReordering entityId sourceId _ => Some (entityId, sourceId)
  | _ => None
  end.

Definition contentEntry (sync : SyncRow.t) : option (string * string) :=
  match sync with
  | SyncRow.NoteContents entityId sourceId => Some (entityId, sourceId)
  | _ => None
  end.

Definition revisionEntry (sync : SyncRow.t) : option (string * string * string) :=
  match sync with
  | SyncRow.NoteRevisions entityId noteId sourceId => Some (entityId, noteId, sourceId)
  | _ => None
  end.


(** The positions a reordering event carries. *)
Definition positionsOf (sync : SyncRow.t) : option (list (string * Z)) :=
  match sync with
  | SyncRow.NoteReordering _ _ positions => Some positions
  | _ => None
  end.

(** The position the last entry for [branchId] among [positions] gives. *)
Fixpoint lastPosition (positions : list (string * Z)) (branchId : string) : option Z :=
  match positions with
  | [] => None
  | (b, p) :: rest =>
      match lastPosition rest branchId with
      | Some q => Some q
      | None => if decide (b = branchId) then Some p else None
      end
  end.

(** ** Notes whose lists and indices agree *)

(** The note lists no parent, child, owned attribute or relation twice, and
    its two branch indices have an entry for exactly the parents and the
    children it lists. *)
Definition consistentNote (n : NoteShort.t) : Prop :=
  NoDup (NoteShort.parents n) ∧ NoDup (NoteShort.children n)
  ∧ NoDup (NoteShort.attributes n) ∧ NoDup (NoteShort.targetRelations n)
  ∧ (∀ p, p ∈ NoteShort.parents n ↔ is_Some (NoteShort.parentToBranch n !! p))
  ∧ (∀ ch, ch ∈ NoteShort.children n ↔ is_Some (NoteShort.childToBranch n !! ch)).

Definition consistent (c : TreeCache) : Prop :=
  ∀ k n, notes c !! k = Some n → consistentNote n.

(** Where an asynchronous call that settled left the world. *)
Definition settledWorld {A} (s : Settled A) : option World :=
  match s with
  | Resolved _ w => Some w
  | Rejected _ w => Some w
  | Unsettled => None
  end.

(** * Properties *)

(** ** Generic facts about the loops *)

Lemma foldl_invariant {S A} (P : S → Prop) (f : S → A → S) (l : list A) (s : S) :
  P s → (∀ s' x, x ∈ l → P s' → P (f s' x)) → P (foldl f s l).
Proof.
  revert s. induction l as [|x l IH]; intros s Hs Hstep; simpl; [done|].
  apply IH.
  - apply Hstep; [left | done].
  - intros s' y Hy. apply Hstep. by right.
Qed.

Lemma foldl_unchanged {S A B} (g : S → B) (f : S → A → S) (l : list A) (s : S) :
  (∀ s' x, x ∈ l → g (f s' x) = g s') → g (foldl f s l) = g s.
Proof.
  intros Hstep.
  apply (foldl_invariant (λ s', g s' = g s)); [done|].
  intros s' x Hx Hs'. by rewrite Hstep.
Qed.


Lemma ofKind_cons name x l :
  ofKind name (x :: l) =
  if String.eqb (SyncRow.entityName x) name then x :: ofKind name l else ofKind name l.
Proof. reflexivity. Qed.


(** ** Sync deletion of a resident branch *)

(** Whatever the cache, a deleting branch event leaves the branch store as it
    was: the callback has no [delete this.branches[...]]. *)
Lemma syncBranch_deleted_keeps_branches c lr entityId sourceId entity :
  BranchRow.isDeleted entity = true →
  branches (fst (syncBranch (c, lr) (SyncRow.Branches entityId sourceId entity))) = branches c.
Proof.
  intros Hdel. unfold syncBranch. rewrite Hdel.
  destruct (branches c !! entityId); simpl; [|done].
  unfold whenResident.
  destruct (isResident c (BranchRow.noteId entity));
    destruct (isResident c (BranchRow.parentNoteId entity)); done.
Qed.

(** C1 (evaluation at the failing input): with P, C and the branch b between
    them resident, the sync event deleting b detaches C from P in both
    directions, and b is still in the branch store afterwards. *)
Theorem processSyncRows_deleted_branch_stays_resident :
  let c' := fst (processSyncRows [SyncRow.Branches "b" "src" (edge "b" "C" "P" true)]
                                 parentAndChild) in
  (NoteShort.parents <$> notes parentAndChild !! "C") = Some ["P"]
  ∧ (NoteShort.children <$> notes parentAndChild !! "P") = Some ["C"]
  ∧ (NoteShort.parents <$> notes c' !! "C") = Some []
  ∧ (NoteShort.parentToBranch <$> notes c' !! "C") = Some ∅
  ∧ (NoteShort.children <$> notes c' !! "P") = Some []
  ∧ (NoteShort.childToBranch <$> notes c' !! "P") = Some ∅
  ∧ branches c' !! "b" = Some (Branch.new (edge "b" "C" "P" false)).
Proof. vm_compute. repeat split. Qed.

(** ** Relation attributes and the target note *)

(** C2 (evaluation at the failing inputs): merging the relation a1 from A to
    B with both notes resident puts a1 in the target-relation list of the
    owner A and leaves B's empty; a sync creation of a1 puts it in B's
    attribute list and leaves B's target-relation list empty; a sync deletion
    of a1 leaves a1 in B's target-relation list. *)
Theorem relation_target_index_not_maintained :
  let merged := outcomeCache (addResp [textNote "A"; textNote "B"] []
                                      [relation "a1" "A" "B" false] emptyCache) in
  let bare := outcomeCache (addResp [textNote "A"; textNote "B"] [] [] emptyCache) in
  let created := fst (processSyncRows
                        [SyncRow.Attributes "a1" "src" (relation "a1" "A" "B" false)] bare) in
  let deleted := fst (processSyncRows
                        [SyncRow.Attributes "a1" "src" (relation "a1" "A" "B" true)]
                        relationIndexed) in
  (NoteShort.targetRelations <$> notes merged !! "B") = Some []
  ∧ (NoteShort.targetRelations <$> notes merged !! "A") = Some ["a1"]
  ∧ (NoteShort.targetRelations <$> notes created !! "B") = Some []
  ∧ (NoteShort.attributes <$> notes created !! "B") = Some ["a1"]
  ∧ (NoteShort.targetRelations <$> notes relationIndexed !! "B") = Some ["a1"]
  ∧ (NoteShort.targetRelations <$> notes deleted !! "B") = Some ["a1"].
Proof. vm_compute. repeat split. Qed.

(** ** Attribute rows of an absent owner *)


(** C3 (evaluation at the failing input): merging one label row whose owner
    note is not in the cache throws a TypeError; the attribute is already in
    the attribute store when it does. *)
Theorem addResp_raises_on_absent_owner :
  ∃ c, addResp [] [] [label "a1" "missing"] emptyCache
       = Raised (TypeError "Cannot read property 'attributes' of undefined") c
       ∧ attributes c !! "a1" = Some (Attribute.new (label "a1" "missing"))
       ∧ notes c !! "missing" = None.
Proof. eexists. vm_compute. repeat split. Qed.

(** ** Lookups of missing branches *)

Lemma getBranches_length c branchIds :
  length (fst (getBranches c branchIds)) = length branchIds.
Proof.
  unfold getBranches. simpl. induction branchIds as [|b l IH]; [done|].
  simpl. unfold getBranch at 1. destruct (branches c !! b); simpl; by rewrite IH.
Qed.

(** C6 (evaluation at the failing input): asking an empty cache for the
    branch "missing" logs the error and returns a one-element list holding
    [undefined]; in general the result is as long as the list of ids, missing
    or not. *)
Theorem getBranches_keeps_undefined :
  getBranches emptyCache ["missing"]
    = ([JsUndefined], [ConsoleError "Not existing branch missing"])
  ∧ ∀ c branchIds, length (fst (getBranches c branchIds)) = length branchIds.
Proof. split; [reflexivity | apply getBranches_length]. Qed.

(** ** Residency tests *)

Lemma isResident_None c noteId : notes c !! noteId = None → isResident c noteId = false.
Proof.
  intros H. unfold isResident. rewrite H. apply bool_decide_eq_false.
  by intros [? ?].
Qed.

Lemma isResident_Some c noteId n : notes c !! noteId = Some n → isResident c noteId = true.
Proof. intros H. unfold isResident. rewrite H. apply bool_decide_eq_true. by eexists. Qed.

(** ** Branch events between unknown notes *)



(** ** Deleting branch events and the change-set *)

Lemma syncBranch_deleted_keeps_changeset c lr entityId sourceId entity :
  BranchRow.isDeleted entity = true →
  snd (syncBranch (c, lr) (SyncRow.Branches entityId sourceId entity)) = lr.
Proof.
  intros Hdel. unfold syncBranch. rewrite Hdel.
  by destruct (branches c !! entityId).
Qed.

Lemma syncBranch_changeset_step st sync :
  LoadResults.branches (snd (syncBranch st sync)) = LoadResults.branches (snd st)
  ∨ ∃ e, liveBranchEntry sync = Some e
         ∧ LoadResults.branches (snd (syncBranch st sync))
           = LoadResults.branches (snd st) ++ [e].
Proof.
  destruct st as [c lr]. destruct sync as [| entityId sourceId entity | | | | |]; try by left.
  unfold syncBranch, liveBranchEntry.
  destruct (branches c !! entityId), (BranchRow.isDeleted entity); simpl;
    try (by left); try (right; by eexists).
  destruct (isResident c (BranchRow.noteId entity) || isResident c (BranchRow.parentNoteId entity));
    [right; by eexists | by left].
Qed.

Lemma foldl_syncBranch_changeset l : ∀ st,
  ∃ added, LoadResults.branches (snd (foldl syncBranch st l))
           = LoadResults.branches (snd st) ++ added
           ∧ added `sublist_of` omap liveBranchEntry l.
Proof.
  induction l as [|x l IH]; intros st.
  - exists []. split; [by rewrite app_nil_r | constructor].
  - simpl foldl. destruct (IH (syncBranch st x)) as (added & Heq & Hsub).
    destruct (syncBranch_changeset_step st x) as [Hsame | (e & Hlive & Hadd)].
    + exists added. rewrite Heq, Hsame. split; [done|].
      simpl. destruct (liveBranchEntry x); [by apply sublist_cons | done].
    + exists (e :: added). rewrite Heq, Hadd, <- app_assoc. split; [done|].
      simpl. rewrite Hlive. by apply sublist_skip.
Qed.

Lemma omap_liveBranchEntry_ofKind l :
  omap liveBranchEntry (ofKind "branches" l) = omap liveBranchEntry l.
Proof.
  induction l as [|x l IH]; [done|].
  rewrite ofKind_cons. unfold omap in *.
  destruct x as [| | | | | |kind ? ?]; simpl; try done; try (by rewrite IH).
  destruct (String.eqb kind "branches"); simpl; by rewrite IH.
Qed.

Lemma syncNote_changeset_branches st sync :
  LoadResults.branches (snd (syncNote st sync)) = LoadResults.branches (snd st).
Proof.
  destruct st as [c lr], sync; try done.
  simpl. by destruct (notes c !! entityId).
Qed.

Lemma syncNoteReordering_changeset_branches st sync :
  LoadResults.branches (snd (syncNoteReordering st sync)) = LoadResults.branches (snd st).
Proof. by destruct st as [c lr], sync. Qed.

Lemma syncAttribute_changeset_branches st sync :
  LoadResults.branches (snd (syncAttribute st sync)) = LoadResults.branches (snd st).
Proof.
  destruct st as [c lr], sync; try done.
  unfold syncAttribute.
  destruct (attributes c !! entityId), (AttributeRow.isDeleted entity); simpl; try done.
  by destruct (isResident c (AttributeRow.noteId entity)
               || String.eqb (AttributeRow.type entity) "relation"
                  && isResident c (AttributeRow.value entity)).
Qed.

Lemma syncNoteContent_changeset_branches st sync :
  LoadResults.branches (snd (syncNoteContent st sync)) = LoadResults.branches (snd st).
Proof. by destruct st as [c lr], sync. Qed.

Lemma syncNoteRevision_changeset_branches st sync :
  LoadResults.branches (snd (syncNoteRevision st sync)) = LoadResults.branches (snd st).
Proof. by destruct st as [c lr], sync. Qed.

(** C9: the branch list of the change-set is a subsequence of the entries of
    the branch events that are not deletions, and handling a deleting branch
    event returns the change-set it was given, whatever it does to the
    cache. *)
Theorem deleted_branch_event_not_in_changeset :
  (∀ syncRows c,
     LoadResults.branches (snd (processSyncRows syncRows c))
       `sublist_of` omap liveBranchEntry syncRows)
  ∧ (∀ c lr entityId sourceId entity,
       BranchRow.isDeleted entity = true →
       snd (syncBranch (c, lr) (SyncRow.Branches entityId sourceId entity)) = lr).
Proof.
  split; [|apply syncBranch_deleted_keeps_changeset].
  intros syncRows c. unfold processSyncRows.
  rewrite (foldl_unchanged (λ st, LoadResults.branches (snd st)) syncNoteRevision)
    by (intros; apply syncNoteRevision_changeset_branches).
  rewrite (foldl_unchanged (λ st, LoadResults.branches (snd st)) syncNoteContent)
    by (intros; apply syncNoteContent_changeset_branches).
  rewrite (foldl_unchanged (λ st, LoadResults.branches (snd st)) syncAttribute)
    by (intros; apply syncAttribute_changeset_branches).
  rewrite (foldl_unchanged (λ st, LoadResults.branches (snd st)) syncNoteReordering)
    by (intros; apply syncNoteReordering_changeset_branches).
  destruct (foldl_syncBranch_changeset (ofKind "branches" syncRows)
              (foldl syncNote (c, LoadResults.new) (ofKind "notes" syncRows)))
    as (added & Heq & Hsub).
  rewrite Heq.
  rewrite (foldl_unchanged (λ st, LoadResults.branches (snd st)) syncNote)
    by (intros; apply syncNote_changeset_branches).
  simpl. by rewrite <- omap_liveBranchEntry_ofKind.
Qed.

Lemma deleted_branch_event_not_in_changeset_witness :
  snd (syncBranch (parentAndChild, LoadResults.new)
                  (SyncRow.Branches "b" "src" (edge "b" "C" "P" true)))
  = LoadResults.new
  ∧ fst (syncBranch (parentAndChild, LoadResults.new)
                    (SyncRow.Branches "b" "src" (edge "b" "C" "P" true)))
    ≠ parentAndChild.
Proof.
  split.
  - apply (proj2 deleted_branch_event_not_in_changeset); reflexivity.
  - intros H. apply (f_equal (λ c, NoteShort.parents <$> notes c !! "C")) in H.
    vm_compute in H. discriminate.
Defined.

(** ** Loading notes that are all resident *)

Section LoaderFacts.
Variable server_tree_load : list Effect → list string → TreeResp.t.
Variable server_search_note : list Effect → string → option (list SearchResult.t).

Lemma reloadNotes_nil fuel w :
  reloadNotes server_tree_load server_search_note fuel [] w = Resolved tt w.
Proof. by destruct fuel. Qed.

Lemma missing_nil c noteIds residentNotes :
  Forall2 (λ noteId n, notes c !! noteId = Some n) noteIds residentNotes →
  List.filter (λ noteId, negb (bool_decide (is_Some (notes c !! noteId)))) noteIds = [].
Proof.
  induction 1 as [|noteId n ids ns Hn _ IH]; [done|].
  simpl. rewrite Hn. rewrite bool_decide_eq_true_2 by by eexists. done.
Qed.

Lemma lookupNote_resident c silent noteIds residentNotes :
  Forall2 (λ noteId n, notes c !! noteId = Some n) noteIds residentNotes →
  map (lookupNote c silent) noteIds = map (λ n, (JsObject n, [])) residentNotes.
Proof.
  induction 1 as [|noteId n ids ns Hn _ IH]; [done|].
  simpl. unfold lookupNote at 1. by rewrite Hn, IH.
Qed.

Lemma filter_truthy_objects {A} (l : list A) :
  List.filter truthy (map fst (map (λ n, (JsObject n, @nil Effect)) l)) = map JsObject l.
Proof. induction l as [|x l IH]; [done|]. simpl. by rewrite IH. Qed.

Lemma no_effects_objects {A} (l : list A) :
  concat (map snd (map (λ n, (JsObject n, @nil Effect)) l)) = [].
Proof. induction l as [|x l IH]; [done|]. simpl. by rewrite IH. Qed.

Lemma perform_nil w : perform [] w = w.
Proof. destruct w. unfold perform. simpl. by rewrite app_nil_r. Qed.

(** C10: when every requested id is resident, the list of missing ids is
    empty, [reloadNotes] on it resolves at once whatever the fuel, and
    [getNotes] resolves to the resident notes of the ids, in order, in a
    world that is the one it started in: same cache, no effect added (no
    server request, no log line). *)
Theorem getNotes_all_resident fuel noteIds silentNotFoundError w residentNotes :
  Forall2 (λ noteId n, notes (cache w) !! noteId = Some n) noteIds residentNotes →
  List.filter (λ noteId, negb (bool_decide (is_Some (notes (cache w) !! noteId)))) noteIds = []
  ∧ reloadNotes server_tree_load server_search_note fuel [] w = Resolved tt w
  ∧ getNotes server_tree_load server_search_note fuel noteIds silentNotFoundError w
    = Resolved (map JsObject residentNotes) w.
Proof.
  intros Hres. split_and!.
  - by eapply missing_nil.
  - apply reloadNotes_nil.
  - unfold getNotes, getNotesWith.
    rewrite (missing_nil _ _ _ Hres), reloadNotes_nil.
    rewrite (lookupNote_resident _ _ _ _ Hres).
    by rewrite filter_truthy_objects, no_effects_objects, perform_nil.
Qed.
(** Whatever [getNotes] resolves to holds note objects only: ids still
    missing after the reload are dropped. *)
Lemma getNotes_only_objects fuel noteIds silentNotFoundError w found w' :
  getNotes server_tree_load server_search_note fuel noteIds silentNotFoundError w
  = Resolved found w' →
  Forall (λ v, ∃ n, v = JsObject n ∧ ∃ noteId, noteId ∈ noteIds ∧ notes (cache w') !! noteId = Some n)
         found.
Proof.
  unfold getNotes, getNotesWith.
  destruct (reloadNotes _ _ _ _ _) as [[] w1| |]; [|done|done].
  intros H. inversion H; subst. clear H.
  apply Forall_forall. intros v Hv.
  apply list_elem_of_In, List.filter_In in Hv as [Hv Htruthy].
  apply List.in_map_iff in Hv as ([v' es] & <- & Hv).
  apply List.in_map_iff in Hv as (noteId & Hv & Hin).
  unfold lookupNote in Hv. simpl in *.
  destruct (notes (cache w1) !! noteId) as [n|] eqn:Hn.
  - inversion Hv; subst. exists n. split; [done|]. exists noteId.
    split; [by apply list_elem_of_In | done].
  - destruct silentNotFoundError; inversion Hv; subst; done.
Qed.

(** A search note that [reloadNotes] gets through is merged once more, with
    its stored branches and the virtual branches of its results. *)
Lemma reloadSearchNote_merges_virtual_branches reload resp note w w' :
  NoteRow.type note = "search" →
  reloadSearchNote server_search_note reload resp note w = Resolved tt w' →
  ∃ searchResults c rows es stored,
    server_search_note (effects w) (NoteRow.noteId note) = Some searchResults
    ∧ virtualBranches c note searchResults = (inl rows, es)
    ∧ addResp [note] (stored ++ rows) [] c = Done (cache w').
Proof.
  intros Htype. unfold reloadSearchNote. rewrite Htype. simpl.
  destruct (server_search_note _ _) as [searchResults|]; [|done].
  destruct (getNotesWith _ _ _ _) as [found w2| |]; [|done|done].
  destruct (virtualBranches _ _ _) as [[rows|e] es] eqn:Hrows; [|done].
  intros H. inversion H; subst. clear H.
  eexists _, _, _, _, _. split; [done|]. split; [exact Hrows|]. reflexivity.
Qed.
End LoaderFacts.

Lemma getNotes_all_resident_witness :
  getNotes silentServerLoad silentServerSearch 0 ["C"; "P"; "C"] false
           {| cache := parentAndChild; effects := [] |}
  = Resolved
      [JsObject (NoteShort.addParent (NoteShort.new (textNote "C")) "P" "b");
       JsObject (NoteShort.addChild (NoteShort.new (textNote "P")) "C" "b");
       JsObject (NoteShort.addParent (NoteShort.new (textNote "C")) "P" "b")]
      {| cache := parentAndChild; effects := [] |}.
Proof.
  apply (getNotes_all_resident silentServerLoad silentServerSearch 0 ["C"; "P"; "C"] false
           {| cache := parentAndChild; effects := [] |}
           [NoteShort.addParent (NoteShort.new (textNote "C")) "P" "b";
            NoteShort.addChild (NoteShort.new (textNote "P")) "C" "b";
            NoteShort.addParent (NoteShort.new (textNote "C")) "P" "b"]).
  repeat constructor.
Defined.

(** ** What each loop body of the merge does to the cache *)

Lemma notes_detachFromChild noteId c childNoteId :
  notes (detachFromChild noteId c childNoteId)
  = alter (dropParent noteId) childNoteId (notes c).
Proof.
  unfold detachFromChild. destruct (notes c !! childNoteId) eqn:H; simpl.
  - rewrite alter_alter_eq. by apply alter_ext.
  - symmetry. apply alter_id. intros x Hx. congruence.
Qed.

Lemma notes_detachFromParent noteId c parentNoteId :
  notes (detachFromParent noteId c parentNoteId)
  = alter (dropChild noteId) parentNoteId (notes c).
Proof.
  unfold detachFromParent. destruct (notes c !! parentNoteId) eqn:H; simpl.
  - rewrite alter_alter_eq. by apply alter_ext.
  - symmetry. apply alter_id. intros x Hx. congruence.
Qed.

Lemma branches_detachFromChild noteId c childNoteId :
  branches (detachFromChild noteId c childNoteId)
  = match notes c !! childNoteId with
    | Some childNote =>
        delete (property_key (NoteShort.parentToBranch childNote !! noteId)) (branches c)
    | None => branches c
    end.
Proof. unfold detachFromChild. by destruct (notes c !! childNoteId). Qed.

Lemma branches_detachFromParent noteId c parentNoteId :
  branches (detachFromParent noteId c parentNoteId)
  = match notes c !! parentNoteId with
    | Some parentNote =>
        delete (property_key (NoteShort.childToBranch parentNote !! noteId)) (branches c)
    | None => branches c
    end.
Proof. unfold detachFromParent. by destruct (notes c !! parentNoteId). Qed.



Lemma promises_detachFromChild noteId c childNoteId :
  noteComplementPromises (detachFromChild noteId c childNoteId) = noteComplementPromises c.
Proof. unfold detachFromChild. by destruct (notes c !! childNoteId). Qed.

Lemma promises_detachFromParent noteId c parentNoteId :
  noteComplementPromises (detachFromParent noteId c parentNoteId) = noteComplementPromises c.
Proof. unfold detachFromParent. by destruct (notes c !! parentNoteId). Qed.

Lemma notes_addNoteRow c row :
  notes (addNoteRow c row)
  = <[NoteRow.noteId row := NoteShort.new row]> (notes (detachOldNote (NoteRow.noteId row) c)).
Proof. reflexivity. Qed.

Lemma branches_addNoteRow c row :
  branches (addNoteRow c row) = branches (detachOldNote (NoteRow.noteId row) c).
Proof. reflexivity. Qed.

(** Mutating the note of a slot that holds none changes nothing, so the
    residency tests that guard the mutations can be dropped. *)
Lemma mutateNote_absent noteId f c : notes c !! noteId = None → mutateNote noteId f c = c.
Proof.
  intros H. unfold mutateNote. rewrite alter_id by (intros x Hx; congruence).
  by destruct c.
Qed.

Lemma mutate_when_present noteId f c :
  match notes c !! noteId with Some _ => mutateNote noteId f c | None => c end
  = mutateNote noteId f c.
Proof. destruct (notes c !! noteId) eqn:H; [done|]. by rewrite mutateNote_absent. Qed.

Lemma whenResident_mutateNote c0 noteId f c :
  (notes c0 !! noteId = None → notes c !! noteId = None) →
  whenResident (isResident c0 noteId) noteId f c = mutateNote noteId f c.
Proof.
  intros H. destruct (notes c0 !! noteId) eqn:H0.
  - by rewrite (isResident_Some _ _ _ H0).
  - rewrite (isResident_None _ _ H0). simpl. by rewrite mutateNote_absent by auto.
Qed.

Lemma addBranchRow_unguarded c row :
  addBranchRow c row
  = mutateNote (BranchRow.parentNoteId row)
      (λ n, NoteShort.addChild n (BranchRow.noteId row) (BranchRow.branchId row))
      (mutateNote (BranchRow.noteId row)
         (λ n, NoteShort.addParent n (BranchRow.parentNoteId row) (BranchRow.branchId row))
         (set_branches c (<[BranchRow.branchId row := Branch.new row]> (branches c)))).
Proof.
  unfold addBranchRow. cbn [Branch.new Branch.noteId Branch.parentNoteId Branch.branchId].
  by rewrite !mutate_when_present.
Qed.

Lemma notes_addBranchRow c row :
  notes (addBranchRow c row)
  = alter (λ n, NoteShort.addChild n (BranchRow.noteId row) (BranchRow.branchId row))
          (BranchRow.parentNoteId row)
      (alter (λ n, NoteShort.addParent n (BranchRow.parentNoteId row) (BranchRow.branchId row))
             (BranchRow.noteId row) (notes c)).
Proof. by rewrite addBranchRow_unguarded. Qed.

Lemma branches_addBranchRow c row :
  branches (addBranchRow c row) = <[BranchRow.branchId row := Branch.new row]> (branches c).
Proof. by rewrite addBranchRow_unguarded. Qed.


Lemma promises_addBranchRow c row :
  noteComplementPromises (addBranchRow c row) = noteComplementPromises c.
Proof. by rewrite addBranchRow_unguarded. Qed.

(** ** Branches only leave the store in the note loop and enter it in the
    branch loop *)

Lemma branches_detachFromChild_lookup noteId c childNoteId b x :
  branches (detachFromChild noteId c childNoteId) !! b = Some x → branches c !! b = Some x.
Proof.
  rewrite branches_detachFromChild. destruct (notes c !! childNoteId); [|done].
  rewrite lookup_delete_Some. by intros [_ ?].
Qed.

Lemma branches_detachFromParent_lookup noteId c parentNoteId b x :
  branches (detachFromParent noteId c parentNoteId) !! b = Some x → branches c !! b = Some x.
Proof.
  rewrite branches_detachFromParent. destruct (notes c !! parentNoteId); [|done].
  rewrite lookup_delete_Some. by intros [_ ?].
Qed.

Lemma branches_detachOldNote_lookup noteId c b x :
  branches (detachOldNote noteId c) !! b = Some x → branches c !! b = Some x.
Proof.
  unfold detachOldNote. destruct (notes c !! noteId) as [oldNote|]; [|done].
  set (c1 := foldl (detachFromChild noteId) c (NoteShort.children oldNote)).
  assert (H1 : branches c1 !! b = Some x → branches c !! b = Some x).
  { subst c1. apply (foldl_invariant (λ c', branches c' !! b = Some x → branches c !! b = Some x));
      [done|]. intros c' ch _ IH H. by apply IH, (branches_detachFromChild_lookup _ _ _ _ _ H). }
  destruct (notes c1 !! noteId) as [oldNote1|]; [|done].
  intros H. apply H1. revert H.
  apply (foldl_invariant (λ c', branches c' !! b = Some x → branches c1 !! b = Some x));
    [done|]. intros c' q _ IH H. by apply IH, (branches_detachFromParent_lookup _ _ _ _ _ H).
Qed.

Lemma branches_noteLoop_lookup noteRows c b x :
  branches (foldl addNoteRow c noteRows) !! b = Some x → branches c !! b = Some x.
Proof.
  apply (foldl_invariant (λ c', branches c' !! b = Some x → branches c !! b = Some x)); [done|].
  intros c' row _ IH H. apply IH. rewrite branches_addNoteRow in H.
  by apply (branches_detachOldNote_lookup _ _ _ _ H).
Qed.


(** ** Virtual branches of a search note *)




(** ** Adjacency lists stay free of duplicates *)

Lemma NoDup_push_new l x : NoDup l → NoDup (push_new l x).
Proof.
  intros Hl. unfold push_new, includes. case_bool_decide; [done|].
  apply NoDup_app. split_and!; [done| |apply NoDup_singleton].
  intros y Hy ->%list_elem_of_singleton. done.
Qed.

Lemma elem_of_push_new l x y : y ∈ push_new l x ↔ y ∈ l ∨ y = x.
Proof.
  unfold push_new, includes. case_bool_decide.
  - split; [by left|]. intros [?| ->]; done.
  - by rewrite elem_of_app, list_elem_of_singleton.
Qed.

Lemma NoDup_without x l : NoDup l → NoDup (without x l).
Proof. apply NoDup_filter. Qed.

Lemma elem_of_without x l y : y ∈ without x l ↔ y ≠ x ∧ y ∈ l.
Proof. unfold without. by rewrite list_elem_of_filter. Qed.

Lemma notes_addBranchRow_lookup c row k :
  notes (addBranchRow c row) !! k = wireNote row k <$> notes c !! k.
Proof.
  rewrite notes_addBranchRow, !lookup_alter. unfold wireNote.
  repeat case_decide; subst; try (by destruct (notes c !! _)).
  rewrite H0. by destruct (notes c !! _).
Qed.

Lemma notes_branchLoop_lookup branchRows : ∀ c k,
  notes (foldl addBranchRow c branchRows) !! k
  = (λ n, foldl (λ n' row, wireNote row k n') n branchRows) <$> notes c !! k.
Proof.
  induction branchRows as [|row rows IH]; intros c k; simpl.
  - by destruct (notes c !! k).
  - rewrite IH, notes_addBranchRow_lookup. by destruct (notes c !! k).
Qed.

Lemma NoDup_children_wireNote row k n :
  NoDup (NoteShort.children n) → NoDup (NoteShort.children (wireNote row k n)).
Proof.
  intros H. unfold wireNote. repeat case_decide; simpl; auto using NoDup_push_new.
Qed.

Lemma NoDup_parents_wireNote row k n :
  NoDup (NoteShort.parents n) → NoDup (NoteShort.parents (wireNote row k n)).
Proof.
  intros H. unfold wireNote. repeat case_decide; simpl; auto using NoDup_push_new.
Qed.


(** ** Order of the events of one sync batch *)








(** ** Replaying a merge: the order of the adjacency lists *)


(** ** The note loop, slot by slot *)

Lemma dropParent_idemp M n : dropParent M (dropParent M n) = dropParent M n.
Proof.
  unfold dropParent, NoteShort.set_parentToBranch, NoteShort.set_parents, without.
  destruct n; simpl. f_equal.
  - rewrite list_filter_filter. apply list_filter_iff. intros x. tauto.
  - apply map_eq. intros i. rewrite !lookup_delete. by repeat case_decide.
Qed.

Lemma dropChild_idemp M n : dropChild M (dropChild M n) = dropChild M n.
Proof.
  unfold dropChild, NoteShort.set_childToBranch, NoteShort.set_children, without.
  destruct n; simpl. f_equal.
  - rewrite list_filter_filter. apply list_filter_iff. intros x. tauto.
  - apply map_eq. intros i. rewrite !lookup_delete. by repeat case_decide.
Qed.

Lemma notes_detachChildren M l : ∀ c k,
  notes (foldl (detachFromChild M) c l) !! k
  = if decide (k ∈ l) then dropParent M <$> notes c !! k else notes c !! k.
Proof.
  induction l as [|ch l IH]; intros c k; simpl.
  - destruct (decide (k ∈ [])) as [H|_]; [by inversion H | done].
  - rewrite IH, notes_detachFromChild, lookup_alter.
    destruct (decide (k ∈ l)) as [Hl|Hl]; destruct (decide (ch = k)) as [->|Hne].
    + rewrite decide_True by left.
      destruct (notes c !! k); simpl; [|done]. by rewrite dropParent_idemp.
    + by rewrite decide_True by by right.
    + by rewrite decide_True by left.
    + rewrite decide_False; [done|]. intros [?|?]%elem_of_cons; congruence.
Qed.

Lemma notes_detachParents M l : ∀ c k,
  notes (foldl (detachFromParent M) c l) !! k
  = if decide (k ∈ l) then dropChild M <$> notes c !! k else notes c !! k.
Proof.
  induction l as [|q l IH]; intros c k; simpl.
  - destruct (decide (k ∈ [])) as [H|_]; [by inversion H | done].
  - rewrite IH, notes_detachFromParent, lookup_alter.
    destruct (decide (k ∈ l)) as [Hl|Hl]; destruct (decide (q = k)) as [->|Hne].
    + rewrite decide_True by left.
      destruct (notes c !! k); simpl; [|done]. by rewrite dropChild_idemp.
    + by rewrite decide_True by by right.
    + by rewrite decide_True by left.
    + rewrite decide_False; [done|]. intros [?|?]%elem_of_cons; congruence.
Qed.

Lemma notes_detachOldNote M c old k :
  notes c !! M = Some old →
  notes (detachOldNote M c) !! k = detachedNote M old k <$> notes c !! k.
Proof.
  intros Hold. unfold detachOldNote. rewrite Hold.
  assert (H1 : notes (foldl (detachFromChild M) c (NoteShort.children old)) !! M
               = Some (afterChildren M old)).
  { rewrite notes_detachChildren, Hold. unfold afterChildren. by case_decide. }
  rewrite H1, notes_detachParents, notes_detachChildren. unfold detachedNote.
  repeat case_decide; by destruct (notes c !! k).
Qed.

Lemma detachOldNote_absent M c : notes c !! M = None → detachOldNote M c = c.
Proof. intros H. unfold detachOldNote. by rewrite H. Qed.

Lemma notes_addNoteRow_other c row old k :
  notes c !! NoteRow.noteId row = Some old → k ≠ NoteRow.noteId row →
  notes (addNoteRow c row) !! k = detachedNote (NoteRow.noteId row) old k <$> notes c !! k.
Proof.
  intros Hold Hk. rewrite notes_addNoteRow, lookup_insert_ne by done.
  by apply notes_detachOldNote.
Qed.

Lemma notes_addNoteRow_self c row :
  notes (addNoteRow c row) !! NoteRow.noteId row = Some (NoteShort.new row).
Proof. by rewrite notes_addNoteRow, lookup_insert_eq. Qed.


Lemma promises_detachOldNote M c :
  noteComplementPromises (detachOldNote M c) = noteComplementPromises c.
Proof.
  unfold detachOldNote. destruct (notes c !! M) as [old|]; [|done].
  set (c1 := foldl (detachFromChild M) c (NoteShort.children old)).
  assert (H1 : noteComplementPromises c1 = noteComplementPromises c).
  { subst c1. apply foldl_unchanged. intros. apply promises_detachFromChild. }
  destruct (notes c1 !! M); [|done].
  rewrite <- H1. apply foldl_unchanged. intros. apply promises_detachFromParent.
Qed.

Lemma parents_afterChildren M old x :
  x ∈ NoteShort.parents (afterChildren M old)
  ↔ x ∈ NoteShort.parents old ∧ (M ∈ NoteShort.children old → x ≠ M).
Proof.
  unfold afterChildren. case_decide; simpl.
  - rewrite elem_of_without. tauto.
  - tauto.
Qed.


Lemma parents_detachedNote M old k n x :
  x ∈ NoteShort.parents (detachedNote M old k n)
  ↔ x ∈ NoteShort.parents n ∧ (k ∈ NoteShort.children old → x ≠ M).
Proof.
  unfold detachedNote. repeat case_decide; simpl; rewrite ?elem_of_without; tauto.
Qed.

Lemma children_detachedNote M old k n x :
  x ∈ NoteShort.children (detachedNote M old k n)
  ↔ x ∈ NoteShort.children n ∧ (k ∈ NoteShort.parents (afterChildren M old) → x ≠ M).
Proof.
  unfold detachedNote. repeat case_decide; simpl; rewrite ?elem_of_without; tauto.
Qed.






(** ** Branch rows that justify an edge *)

Lemma hasRow_cons r rows ch p :
  hasRow (r :: rows) ch p
  ↔ (BranchRow.noteId r = ch ∧ BranchRow.parentNoteId r = p) ∨ hasRow rows ch p.
Proof.
  unfold hasRow. split.
  - intros (r' & [->|Hin]%elem_of_cons & H1 & H2); [by left | right; by exists r'].
  - intros [[H1 H2] | (r' & Hin & H1 & H2)].
    + exists r. split; [left | done].
    + exists r'. split; [by right | done].
Qed.

Lemma hasRow_nil ch p : ¬ hasRow [] ch p.
Proof. intros (r & Hin & _). by inversion Hin. Qed.




(** ** The batch notes after a merge *)



Lemma parents_wireNote r k n x :
  x ∈ NoteShort.parents (wireNote r k n)
  ↔ x ∈ NoteShort.parents n ∨ (BranchRow.noteId r = k ∧ x = BranchRow.parentNoteId r).
Proof.
  unfold wireNote. repeat case_decide; simpl; rewrite ?elem_of_push_new; tauto.
Qed.

Lemma children_wireNote r k n x :
  x ∈ NoteShort.children (wireNote r k n)
  ↔ x ∈ NoteShort.children n ∨ (BranchRow.parentNoteId r = k ∧ x = BranchRow.noteId r).
Proof.
  unfold wireNote. repeat case_decide; simpl; rewrite ?elem_of_push_new; tauto.
Qed.

Lemma parentToBranch_wireNote r k n x :
  NoteShort.parentToBranch (wireNote r k n) !! x
  = if decide (BranchRow.noteId r = k ∧ BranchRow.parentNoteId r = x)
    then Some (BranchRow.branchId r) else NoteShort.parentToBranch n !! x.
Proof.
  unfold wireNote. repeat case_decide; simpl; rewrite ?lookup_insert;
    repeat case_decide; try done; exfalso; intuition congruence.
Qed.

Lemma childToBranch_wireNote r k n x :
  NoteShort.childToBranch (wireNote r k n) !! x
  = if decide (BranchRow.parentNoteId r = k ∧ BranchRow.noteId r = x)
    then Some (BranchRow.branchId r) else NoteShort.childToBranch n !! x.
Proof.
  unfold wireNote. repeat case_decide; simpl; rewrite ?lookup_insert;
    repeat case_decide; try done; exfalso; intuition congruence.
Qed.




(** ** Residency through the loops *)

Lemma resident_detachOldNote M c k :
  is_Some (notes (detachOldNote M c) !! k) ↔ is_Some (notes c !! k).
Proof.
  destruct (notes c !! M) as [old|] eqn:Hold.
  - rewrite (notes_detachOldNote _ _ old) by done. apply fmap_is_Some.
  - by rewrite detachOldNote_absent.
Qed.

Lemma resident_addNoteRow c row k :
  is_Some (notes (addNoteRow c row) !! k) ↔ k = NoteRow.noteId row ∨ is_Some (notes c !! k).
Proof.
  rewrite notes_addNoteRow, lookup_insert_is_Some', resident_detachOldNote.
  split; intros [?|?]; auto.
Qed.

Lemma resident_noteLoop noteRows : ∀ c k,
  is_Some (notes (foldl addNoteRow c noteRows) !! k)
  ↔ k ∈ map NoteRow.noteId noteRows ∨ is_Some (notes c !! k).
Proof.
  induction noteRows as [|row rows IH]; intros c k; simpl.
  - split; [by right|]. intros [H|H]; [by inversion H | done].
  - rewrite IH, resident_addNoteRow, elem_of_cons. tauto.
Qed.

Lemma resident_branchLoop branchRows c k :
  is_Some (notes (foldl addBranchRow c branchRows) !! k) ↔ is_Some (notes c !! k).
Proof. rewrite notes_branchLoop_lookup. apply fmap_is_Some. Qed.

(** ** Notes of the batch are fresh after the note loop *)

Lemma dropParent_new M row : dropParent M (NoteShort.new row) = NoteShort.new row.
Proof.
  unfold dropParent, NoteShort.set_parentToBranch, NoteShort.set_parents, NoteShort.new.
  simpl. f_equal; try apply delete_empty.
Qed.

Lemma dropChild_new M row : dropChild M (NoteShort.new row) = NoteShort.new row.
Proof.
  unfold dropChild, NoteShort.set_childToBranch, NoteShort.set_children, NoteShort.new.
  simpl. f_equal; try apply delete_empty.
Qed.

Lemma detachedNote_new M old k row :
  detachedNote M old k (NoteShort.new row) = NoteShort.new row.
Proof.
  unfold detachedNote. repeat case_decide; by rewrite ?dropParent_new, ?dropChild_new.
Qed.

Lemma noteLoop_keeps_fresh rows : ∀ c k row0,
  notes c !! k = Some (NoteShort.new row0) →
  notes (foldl addNoteRow c rows) !! k = Some (NoteShort.new (lastNoteRow rows k row0)).
Proof.
  induction rows as [|row rows IH]; intros c k row0 Hk; [done|].
  simpl. unfold lastNoteRow. simpl. case_decide as Hrow.
  - apply IH. subst k. apply notes_addNoteRow_self.
  - apply IH. destruct (notes c !! NoteRow.noteId row) as [old|] eqn:Hold.
    + rewrite (notes_addNoteRow_other _ _ old) by done.
      rewrite Hk. simpl. by rewrite detachedNote_new.
    + rewrite notes_addNoteRow, lookup_insert_ne by done.
      by rewrite detachOldNote_absent.
Qed.

Lemma noteLoop_batch_fresh rows k :
  k ∈ map NoteRow.noteId rows →
  ∃ row, ∀ c, notes (foldl addNoteRow c rows) !! k = Some (NoteShort.new row).
Proof.
  intros Hk. apply list_elem_of_In, List.in_map_iff in Hk as (r & Hr & Hin).
  apply list_elem_of_In, list_elem_of_split in Hin as (pre & post & ->).
  exists (lastNoteRow post k r). intros c.
  rewrite foldl_app. simpl. apply noteLoop_keeps_fresh.
  subst k. apply notes_addNoteRow_self.
Qed.

(** ** Notes outside the batch during a replay *)






(** ** The attribute loop, slot by slot *)

Lemma isResident_is_Some c k : isResident c k = true ↔ is_Some (notes c !! k).
Proof. unfold isResident. apply bool_decide_eq_true. Qed.

Lemma isResident_ext c c' k :
  (is_Some (notes c !! k) ↔ is_Some (notes c' !! k)) → isResident c k = isResident c' k.
Proof. intros H. unfold isResident. by apply bool_decide_ext. Qed.

Lemma addAttributeRow_resident c row :
  is_Some (notes c !! AttributeRow.noteId row) →
  addAttributeRow c row = Done (attributed c row).
Proof.
  intros [n Hn]. unfold addAttributeRow, attributed. cbn [notes set_attributes].
  rewrite Hn.
  set (c2 := mutateNote _ _ _).
  assert (Hres : isResident c (AttributeRow.value row)
                 = bool_decide (is_Some (notes c2 !! AttributeRow.value row))).
  { unfold isResident. apply bool_decide_ext. subst c2. unfold mutateNote. simpl.
    rewrite lookup_alter. case_decide as Heq; [by rewrite fmap_is_Some, Heq | done]. }
  rewrite Hres.
  destruct (String.eqb (AttributeRow.type row) "relation"); cbn [andb]; [|done].
  destruct (notes c2 !! AttributeRow.value row) eqn:Hv.
  - by rewrite bool_decide_eq_true_2 by by eexists.
  - rewrite bool_decide_eq_false_2; [done|]. by intros [? ?].
Qed.

Lemma notes_attributed c row k :
  notes (attributed c row) !! k
  = attrNote (isResident c (AttributeRow.value row)) row k <$> notes c !! k.
Proof.
  unfold attributed, attrNote.
  destruct (String.eqb (AttributeRow.type row) "relation"
            && isResident c (AttributeRow.value row)); simpl;
    rewrite ?lookup_alter; repeat case_decide; subst; try done;
    by destruct (notes c !! _).
Qed.

Lemma branches_attributed c row : branches (attributed c row) = branches c.
Proof. unfold attributed. by destruct (_ && _). Qed.

Lemma promises_attributed c row :
  noteComplementPromises (attributed c row) = noteComplementPromises c.
Proof. unfold attributed. by destruct (_ && _). Qed.


Lemma resident_attributed c row k :
  is_Some (notes (attributed c row) !! k) ↔ is_Some (notes c !! k).
Proof. rewrite notes_attributed. apply fmap_is_Some. Qed.




Lemma attrAll_ext res res' rows k : ∀ n,
  (∀ v, res v = res' v) → attrAll res rows k n = attrAll res' rows k n.
Proof.
  unfold attrAll. induction rows as [|row rows IH]; intros n Hext; simpl; [done|].
  rewrite Hext. by apply IH.
Qed.

Lemma notes_attrLoop rows : ∀ c k,
  notes (foldl attributed c rows) !! k = attrAll (isResident c) rows k <$> notes c !! k.
Proof.
  induction rows as [|row rows IH]; intros c k; simpl.
  - by destruct (notes c !! k).
  - rewrite IH, notes_attributed.
    destruct (notes c !! k) as [n|]; simpl; [|done]. f_equal.
    unfold attrAll at 2. simpl. apply attrAll_ext.
    intros v. apply isResident_ext, resident_attributed.
Qed.





Lemma attrAll_unfold res rows k n :
  attrAll res rows k n
  = NoteShort.set_targetRelations
      (NoteShort.set_attributes n
         (pushOwned (λ row, bool_decide (AttributeRow.noteId row = k)) rows
                    (NoteShort.attributes n)))
      (pushOwned (λ row, bool_decide (AttributeRow.noteId row = k)
                         && (String.eqb (AttributeRow.type row) "relation"
                             && res (AttributeRow.value row)))
                 rows (NoteShort.targetRelations n)).
Proof.
  unfold attrAll, pushOwned. revert n.
  induction rows as [|row rows IH]; intros n; simpl; [by destruct n|].
  rewrite IH. unfold attrNote. case_decide as Hk.
  - rewrite bool_decide_eq_true_2 by done. simpl.
    by destruct (String.eqb (AttributeRow.type row) "relation"
                 && res (AttributeRow.value row)).
  - by rewrite bool_decide_eq_false_2 by done.
Qed.


(** ** Adjacency up to the entries the branch rows set *)


Lemma agreeAdj_same rows k n n1 :
  NoteShort.parents n = NoteShort.parents n1 →
  NoteShort.parentToBranch n = NoteShort.parentToBranch n1 →
  NoteShort.children n = NoteShort.children n1 →
  NoteShort.childToBranch n = NoteShort.childToBranch n1 →
  agreeAdj rows k n n1.
Proof. intros H1 H2 H3 H4. unfold agreeAdj. rewrite H1, H2, H3, H4. by split_and!; left. Qed.


(** A row of the list changes a note only where the list justifies it. *)
Lemma agreeAdj_wireNote_absorb rows r k n n0 :
  r ∈ rows → agreeAdj rows k n n0 → agreeAdj rows k (wireNote r k n) n0.
Proof.
  intros Hr (A1 & A2 & A3 & A4). unfold agreeAdj. split_and!; intros x.
  - destruct (decide (BranchRow.noteId r = k ∧ x = BranchRow.parentNoteId r)) as [[? ->]|Hno].
    + right. by exists r.
    + destruct (A1 x) as [Ha|?]; [left | by right].
      rewrite parents_wireNote, <- Ha. tauto.
  - rewrite parentToBranch_wireNote. case_decide as Hk; [|apply A2].
    right. destruct Hk. by exists r.
  - destruct (decide (BranchRow.parentNoteId r = k ∧ x = BranchRow.noteId r)) as [[? ->]|Hno].
    + right. by exists r.
    + destruct (A3 x) as [Ha|?]; [left | by right].
      rewrite children_wireNote, <- Ha. tauto.
  - rewrite childToBranch_wireNote. case_decide as Hk; [|apply A4].
    right. destruct Hk. by exists r.
Qed.

Lemma agreeAdj_wireAll_self rows k n : agreeAdj rows k (wireAll rows k n) n.
Proof.
  unfold wireAll.
  apply (foldl_invariant (λ n', agreeAdj rows k n' n)); [by apply agreeAdj_same|].
  intros n' r Hr. by apply agreeAdj_wireNote_absorb.
Qed.



(** ** Stores filled by a loop of assignments *)


Lemma insertAll_outside {A V} (key : A → string) (val : A → V) rows (m : gmap string V) k :
  insertAll key val rows m !! k = m !! k ∨ k ∈ map key rows.
Proof.
  unfold insertAll.
  apply (foldl_invariant (λ m', m' !! k = m !! k ∨ k ∈ map key rows)); [by left|].
  intros m' row Hrow [Heq|?]; [|by right].
  rewrite lookup_insert. case_decide as Hk; [|by left].
  right. subst k. apply list_elem_of_In, List.in_map, list_elem_of_In, Hrow.
Qed.


Lemma branches_branchLoop rows : ∀ c,
  branches (foldl addBranchRow c rows)
  = insertAll BranchRow.branchId Branch.new rows (branches c).
Proof.
  unfold insertAll. induction rows as [|row rows IH]; intros c; simpl; [done|].
  by rewrite IH, branches_addBranchRow.
Qed.


Lemma promises_branchLoop rows c :
  noteComplementPromises (foldl addBranchRow c rows) = noteComplementPromises c.
Proof. apply foldl_unchanged. intros. apply promises_addBranchRow. Qed.




Lemma notes_branchLoop_wireAll rows c k :
  notes (foldl addBranchRow c rows) !! k = wireAll rows k <$> notes c !! k.
Proof. apply notes_branchLoop_lookup. Qed.

(** ** Notes that are the same after a replay *)



(** ** Replaying a merge *)


Lemma sameAdjacency_attrLoop rows c : sameAdjacency c (foldl attributed c rows).
Proof.
  intros k. rewrite notes_attrLoop. destruct (notes c !! k) as [n|]; simpl; [|done].
  by rewrite attrAll_unfold.
Qed.






(** ** Virtual branches are reproducible *)



(** * Further properties *)

(** ** A merge, however it ends *)

Lemma sameAdjacency_refl c : sameAdjacency c c.
Proof. intros k. by destruct (notes c !! k). Qed.

Lemma sameAdjacency_trans c1 c2 c3 :
  sameAdjacency c1 c2 → sameAdjacency c2 c3 → sameAdjacency c1 c3.
Proof.
  intros H12 H23 k. specialize (H12 k). specialize (H23 k).
  destruct (notes c1 !! k), (notes c2 !! k), (notes c3 !! k); try done.
  destruct H12 as (-> & -> & -> & ->). done.
Qed.

Lemma sameAdjacency_attributed c row : sameAdjacency c (attributed c row).
Proof. apply (sameAdjacency_attrLoop [row]). Qed.

(** The attribute loop, thrown out of or not, leaves the adjacency of every
    note, the resident notes, the branch store and the cached complements as
    they were. *)
Lemma attrLoop_outcome rows : ∀ c,
  sameAdjacency c (outcomeCache (forEachRaising addAttributeRow c rows))
  ∧ branches (outcomeCache (forEachRaising addAttributeRow c rows)) = branches c
  ∧ noteComplementPromises (outcomeCache (forEachRaising addAttributeRow c rows))
    = noteComplementPromises c.
Proof.
  induction rows as [|row rows IH]; intros c; simpl.
  - split; [apply sameAdjacency_refl | done].
  - destruct (notes c !! AttributeRow.noteId row) as [n|] eqn:Hn.
    + rewrite addAttributeRow_resident by by eexists.
      destruct (IH (attributed c row)) as (Hadj & Hbr & Hprom). split_and!.
      * eapply sameAdjacency_trans; [apply sameAdjacency_attributed | done].
      * by rewrite Hbr, branches_attributed.
      * by rewrite Hprom, promises_attributed.
    + unfold addAttributeRow. cbn [notes set_attributes]. rewrite Hn. simpl.
      split; [|done]. intros k. simpl. by destruct (notes c !! k).
Qed.

Lemma sameAdjacency_resident c c' k :
  sameAdjacency c c' → (is_Some (notes c' !! k) ↔ is_Some (notes c !! k)).
Proof.
  intros H. specialize (H k).
  destruct (notes c !! k), (notes c' !! k); first [done | split; intros [? ?]; done].
Qed.

(** X1: however a merge ends, the notes resident afterwards are those that
    were resident before and those of the note rows: a merge loads notes and
    never unloads one. *)
Theorem addResp_resident_notes noteRows branchRows attributeRows c k :
  is_Some (notes (outcomeCache (addResp noteRows branchRows attributeRows c)) !! k)
  ↔ k ∈ map NoteRow.noteId noteRows ∨ is_Some (notes c !! k).
Proof.
  unfold addResp.
  destruct (attrLoop_outcome attributeRows
              (foldl addBranchRow (foldl addNoteRow c noteRows) branchRows)) as (Hadj & _).
  rewrite (sameAdjacency_resident _ _ k Hadj).
  by rewrite resident_branchLoop, resident_noteLoop.
Qed.

(** ** The adjacency a merge gives the notes of its batch *)

Lemma parents_wireAll rows k : ∀ n x,
  x ∈ NoteShort.parents (wireAll rows k n) ↔ x ∈ NoteShort.parents n ∨ hasRow rows k x.
Proof.
  unfold wireAll. induction rows as [|r rows IH]; intros n x; simpl.
  - split; [by left|]. intros [?|H]; [done | by apply hasRow_nil in H].
  - rewrite IH, parents_wireNote, hasRow_cons. split.
    + intros [[?|[? ->]]|?]; auto.
    + intros [?|[[? <-]|?]]; auto.
Qed.

Lemma children_wireAll rows k : ∀ n x,
  x ∈ NoteShort.children (wireAll rows k n) ↔ x ∈ NoteShort.children n ∨ hasRow rows x k.
Proof.
  unfold wireAll. induction rows as [|r rows IH]; intros n x; simpl.
  - split; [by left|]. intros [?|H]; [done | by apply hasRow_nil in H].
  - rewrite IH, children_wireNote, hasRow_cons. split.
    + intros [[?|[? ->]]|?]; auto.
    + intros [?|[[<- ?]|?]]; auto.
Qed.

Lemma parentToBranch_wireAll_is_Some rows k : ∀ n x,
  is_Some (NoteShort.parentToBranch (wireAll rows k n) !! x)
  ↔ is_Some (NoteShort.parentToBranch n !! x) ∨ hasRow rows k x.
Proof.
  unfold wireAll. induction rows as [|r rows IH]; intros n x; simpl.
  - split; [by left|]. intros [?|H]; [done | by apply hasRow_nil in H].
  - rewrite IH, parentToBranch_wireNote, hasRow_cons. case_decide as Hk.
    + split; [intros _; right; by left | intros _; left; by eexists].
    + split; [intros [?|?]; auto | intros [?|[?|?]]; auto]. done.
Qed.

Lemma childToBranch_wireAll_is_Some rows k : ∀ n x,
  is_Some (NoteShort.childToBranch (wireAll rows k n) !! x)
  ↔ is_Some (NoteShort.childToBranch n !! x) ∨ hasRow rows x k.
Proof.
  unfold wireAll. induction rows as [|r rows IH]; intros n x; simpl.
  - split; [by left|]. intros [?|H]; [done | by apply hasRow_nil in H].
  - rewrite IH, childToBranch_wireNote, hasRow_cons. case_decide as Hk.
    + split; [intros _; right; left; tauto | intros _; left; by eexists].
    + split; [intros [?|?]; auto | intros [?|[?|?]]; auto]. tauto.
Qed.

Lemma NoDup_wireAll rows k : ∀ n,
  NoDup (NoteShort.parents n) → NoDup (NoteShort.children n) →
  NoDup (NoteShort.parents (wireAll rows k n)) ∧ NoDup (NoteShort.children (wireAll rows k n)).
Proof.
  unfold wireAll. induction rows as [|r rows IH]; intros n Hp Hc; simpl; [done|].
  apply IH; [by apply NoDup_parents_wireNote | by apply NoDup_children_wireNote].
Qed.

(** The note of slot [k] after the note loop and the branch loop of a merge,
    whatever the attribute loop does afterwards. *)
Lemma addResp_note_adjacency noteRows branchRows attributeRows c k n1 :
  notes (outcomeCache (addResp noteRows branchRows attributeRows c)) !! k = Some n1 →
  ∃ n0, notes (foldl addNoteRow c noteRows) !! k = Some n0
        ∧ NoteShort.parents n1 = NoteShort.parents (wireAll branchRows k n0)
        ∧ NoteShort.children n1 = NoteShort.children (wireAll branchRows k n0)
        ∧ NoteShort.parentToBranch n1 = NoteShort.parentToBranch (wireAll branchRows k n0)
        ∧ NoteShort.childToBranch n1 = NoteShort.childToBranch (wireAll branchRows k n0).
Proof.
  unfold addResp. intros Hn1.
  destruct (attrLoop_outcome attributeRows
              (foldl addBranchRow (foldl addNoteRow c noteRows) branchRows)) as (Hadj & _).
  specialize (Hadj k). rewrite Hn1, notes_branchLoop_wireAll in Hadj.
  destruct (notes (foldl addNoteRow c noteRows) !! k) as [n0|]; [|done].
  simpl in Hadj. destruct Hadj as (H1 & H2 & H3 & H4). exists n0.
  by rewrite H1, H2, H3, H4.
Qed.

(** X2: however a merge ends, a note of its note rows lists exactly the
    parents and the children that the branch rows of the same batch give it,
    each once, and its two mappings have exactly those keys: what the cache
    knew about the note's edges before is replaced. *)
Theorem addResp_batch_note_adjacency noteRows branchRows attributeRows c X :
  X ∈ map NoteRow.noteId noteRows →
  ∃ n, notes (outcomeCache (addResp noteRows branchRows attributeRows c)) !! X = Some n
    ∧ (∀ q, q ∈ NoteShort.parents n ↔ hasRow branchRows X q)
    ∧ (∀ ch, ch ∈ NoteShort.children n ↔ hasRow branchRows ch X)
    ∧ (∀ q, is_Some (NoteShort.parentToBranch n !! q) ↔ hasRow branchRows X q)
    ∧ (∀ ch, is_Some (NoteShort.childToBranch n !! ch) ↔ hasRow branchRows ch X)
    ∧ NoDup (NoteShort.parents n) ∧ NoDup (NoteShort.children n).
Proof.
  intros HX.
  assert (Hres : is_Some (notes (outcomeCache (addResp noteRows branchRows attributeRows c))
                          !! X)) by (apply addResp_resident_notes; by left).
  destruct Hres as [n Hn]. exists n. split; [done|].
  destruct (addResp_note_adjacency _ _ _ _ _ _ Hn) as (n0 & Hn0 & -> & -> & -> & ->).
  destruct (noteLoop_batch_fresh noteRows X HX) as [row Hrow].
  rewrite Hrow in Hn0. inversion Hn0; subst n0. clear Hn0.
  split_and!.
  - intros q. rewrite parents_wireAll. simpl. split; [intros [H|?]; [by inversion H | done] | auto].
  - intros ch. rewrite children_wireAll. simpl.
    split; [intros [H|?]; [by inversion H | done] | auto].
  - intros q. rewrite parentToBranch_wireAll_is_Some. simpl. rewrite lookup_empty.
    split; [intros [[? H]|?]; [done | done] | auto].
  - intros ch. rewrite childToBranch_wireAll_is_Some. simpl. rewrite lookup_empty.
    split; [intros [[? H]|?]; [done | done] | auto].
  - apply NoDup_wireAll; constructor.
  - apply NoDup_wireAll; constructor.
Qed.

Lemma addResp_batch_note_adjacency_witness :
  ∃ n, notes (outcomeCache (addResp [textNote "C"] [edge "b2" "C" "Q" false] []
                                    parentAndChild)) !! "C" = Some n
    ∧ (∀ q, q ∈ NoteShort.parents n ↔ hasRow [edge "b2" "C" "Q" false] "C" q)
    ∧ (∀ ch, ch ∈ NoteShort.children n ↔ hasRow [edge "b2" "C" "Q" false] ch "C")
    ∧ (∀ q, is_Some (NoteShort.parentToBranch n !! q) ↔ hasRow [edge "b2" "C" "Q" false] "C" q)
    ∧ (∀ ch, is_Some (NoteShort.childToBranch n !! ch)
             ↔ hasRow [edge "b2" "C" "Q" false] ch "C")
    ∧ NoDup (NoteShort.parents n) ∧ NoDup (NoteShort.children n).
Proof.
  apply (addResp_batch_note_adjacency [textNote "C"] [edge "b2" "C" "Q" false] []
           parentAndChild "C").
  vm_compute. left.
Defined.

(** ** Reloading one note drops its stale edges *)

Lemma branches_detachChildren_None M l c b :
  branches c !! b = None → branches (foldl (detachFromChild M) c l) !! b = None.
Proof.
  intros Hb. apply (foldl_invariant (λ c', branches c' !! b = None)); [done|].
  intros c' ch _ Hc'. destruct (branches (detachFromChild M c' ch) !! b) eqn:H; [|done].
  apply branches_detachFromChild_lookup in H. congruence.
Qed.

Lemma branches_detachParents_None M l c b :
  branches c !! b = None → branches (foldl (detachFromParent M) c l) !! b = None.
Proof.
  intros Hb. apply (foldl_invariant (λ c', branches c' !! b = None)); [done|].
  intros c' q _ Hc'. destruct (branches (detachFromParent M c' q) !! b) eqn:H; [|done].
  apply branches_detachFromParent_lookup in H. congruence.
Qed.

Lemma branches_detachChildren_deleted M l : ∀ c ch m b,
  ch ∈ l → notes c !! ch = Some m → NoteShort.parentToBranch m !! M = Some b →
  branches (foldl (detachFromChild M) c l) !! b = None.
Proof.
  induction l as [|x l IH]; intros c ch m b Hin Hm Hb; [by inversion Hin|].
  simpl. destruct (decide (x = ch)) as [->|Hne].
  - apply branches_detachChildren_None.
    rewrite branches_detachFromChild, Hm, Hb. simpl. apply lookup_delete_eq.
  - apply elem_of_cons in Hin as [?|Hin]; [congruence|].
    apply (IH _ ch m); [done| |done].
    by rewrite notes_detachFromChild, lookup_alter_ne.
Qed.

Lemma branches_detachParents_deleted M l : ∀ c q m b,
  q ∈ l → notes c !! q = Some m → NoteShort.childToBranch m !! M = Some b →
  branches (foldl (detachFromParent M) c l) !! b = None.
Proof.
  induction l as [|x l IH]; intros c q m b Hin Hm Hb; [by inversion Hin|].
  simpl. destruct (decide (x = q)) as [->|Hne].
  - apply branches_detachParents_None.
    rewrite branches_detachFromParent, Hm, Hb. simpl. apply lookup_delete_eq.
  - apply elem_of_cons in Hin as [?|Hin]; [congruence|].
    apply (IH _ q m); [done| |done].
    by rewrite notes_detachFromParent, lookup_alter_ne.
Qed.

(** A branch id that the note loop has removed and that no branch row
    carries is absent from the branch store when the merge ends. *)
Lemma addResp_branch_stays_removed noteRows branchRows attributeRows c b :
  branches (foldl addNoteRow c noteRows) !! b = None →
  ¬ hasBranchId branchRows b →
  branches (outcomeCache (addResp noteRows branchRows attributeRows c)) !! b = None.
Proof.
  intros Hb Hid. unfold addResp.
  destruct (attrLoop_outcome attributeRows
              (foldl addBranchRow (foldl addNoteRow c noteRows) branchRows)) as (_ & -> & _).
  rewrite branches_branchLoop.
  destruct (insertAll_outside BranchRow.branchId Branch.new branchRows
              (branches (foldl addNoteRow c noteRows)) b) as [->|?]; done.
Qed.

(** X3: merging one note row for a resident note drops the note's stale
    edges.  The branch a resident child (or a resident parent other than the
    note itself) holds for the note leaves the branch store unless a branch
    row of the batch carries its id, and afterwards that neighbour lists the
    note exactly when a branch row of the batch links the two. *)
Theorem addResp_reload_drops_stale_edges row branchRows attributeRows c old :
  notes c !! NoteRow.noteId row = Some old →
  (∀ ch m b, ch ∈ NoteShort.children old → notes c !! ch = Some m →
     NoteShort.parentToBranch m !! NoteRow.noteId row = Some b →
     ¬ hasBranchId branchRows b →
     branches (outcomeCache (addResp [row] branchRows attributeRows c)) !! b = None)
  ∧ (∀ q m b, q ∈ NoteShort.parents old → q ≠ NoteRow.noteId row →
       notes c !! q = Some m →
       NoteShort.childToBranch m !! NoteRow.noteId row = Some b →
       ¬ hasBranchId branchRows b →
       branches (outcomeCache (addResp [row] branchRows attributeRows c)) !! b = None)
  ∧ (∀ ch m1, ch ∈ NoteShort.children old → ch ≠ NoteRow.noteId row →
       notes (outcomeCache (addResp [row] branchRows attributeRows c)) !! ch = Some m1 →
       (NoteRow.noteId row ∈ NoteShort.parents m1
        ↔ hasRow branchRows ch (NoteRow.noteId row)))
  ∧ (∀ q m1, q ∈ NoteShort.parents old → q ≠ NoteRow.noteId row →
       notes (outcomeCache (addResp [row] branchRows attributeRows c)) !! q = Some m1 →
       (NoteRow.noteId row ∈ NoteShort.children m1
        ↔ hasRow branchRows (NoteRow.noteId row) q)).
Proof.
  intros Hold. set (X := NoteRow.noteId row) in *.
  assert (H1 : notes (foldl (detachFromChild X) c (NoteShort.children old)) !! X
               = Some (afterChildren X old)).
  { rewrite notes_detachChildren, Hold. unfold afterChildren. by case_decide. }
  split_and!.
  - intros ch m b Hch Hm Hb Hid. apply addResp_branch_stays_removed; [|done].
    cbn [foldl]. rewrite branches_addNoteRow. fold X. unfold detachOldNote. rewrite Hold, H1.
    apply branches_detachParents_None. by apply (branches_detachChildren_deleted _ _ _ ch m).
  - intros q m b Hq HqX Hm Hb Hid. apply addResp_branch_stays_removed; [|done].
    cbn [foldl]. rewrite branches_addNoteRow. fold X. unfold detachOldNote. rewrite Hold, H1.
    assert (Hq' : q ∈ NoteShort.parents (afterChildren X old))
      by (apply parents_afterChildren; by split).
    assert (∃ m', notes (foldl (detachFromChild X) c (NoteShort.children old)) !! q = Some m'
                  ∧ NoteShort.childToBranch m' !! X = Some b) as (m' & Hm' & Hb').
    { rewrite notes_detachChildren, Hm. case_decide; eexists; by split. }
    by apply (branches_detachParents_deleted _ _ _ q m').
  - intros ch m1 Hch HchX Hm1.
    destruct (addResp_note_adjacency _ _ _ _ _ _ Hm1) as (n0 & Hn0 & -> & _).
    cbn [foldl] in Hn0. rewrite (notes_addNoteRow_other _ _ old) in Hn0 by done.
    destruct (notes c !! ch) as [m|]; [|done]. simpl in Hn0. inversion Hn0; subst n0.
    rewrite parents_wireAll, parents_detachedNote. fold X. split; [|by right].
    intros [[_ Hne]|?]; [by destruct (Hne Hch) | done].
  - intros q m1 Hq HqX Hm1.
    destruct (addResp_note_adjacency _ _ _ _ _ _ Hm1) as (n0 & Hn0 & _ & -> & _).
    cbn [foldl] in Hn0. rewrite (notes_addNoteRow_other _ _ old) in Hn0 by done.
    destruct (notes c !! q) as [m|]; [|done]. simpl in Hn0. inversion Hn0; subst n0.
    rewrite children_wireAll, children_detachedNote. fold X. split; [|by right].
    intros [[_ Hne]|?]; [|done].
    exfalso. apply Hne; [|done]. apply parents_afterChildren. by split.
Qed.

Lemma addResp_reload_drops_stale_edges_witness :
  branches (outcomeCache (addResp [textNote "C"] [edge "b2" "C" "Q" false] []
                                  parentAndChild)) !! "b" = None.
Proof.
  apply (proj1 (proj2 (addResp_reload_drops_stale_edges (textNote "C")
                         [edge "b2" "C" "Q" false] [] parentAndChild
                         (NoteShort.addParent (NoteShort.new (textNote "C")) "P" "b")
                         eq_refl))
         "P" (NoteShort.addChild (NoteShort.new (textNote "P")) "C" "b") "b").
  - vm_compute. left.
  - discriminate.
  - reflexivity.
  - reflexivity.
  - vm_compute. intros H. inversion H as [|? ? ? H']; subst. inversion H'.
Defined.

(** ** Branches merged and looked up *)

(** X4: however a merge ends, each branch id of its branch rows is in the
    branch store, holding the entity of the last row with that id, so
    [getBranch] on it returns that entity and logs nothing. *)
Theorem addResp_then_getBranch noteRows pre r post attributeRows c silent :
  BranchRow.branchId r ∉ map BranchRow.branchId post →
  getBranch (outcomeCache (addResp noteRows (pre ++ r :: post) attributeRows c))
            (BranchRow.branchId r) silent
  = (JsObject (Branch.new r), []).
Proof.
  intros Hlast. unfold getBranch, addResp.
  destruct (attrLoop_outcome attributeRows
              (foldl addBranchRow (foldl addNoteRow c noteRows) (pre ++ r :: post)))
    as (_ & -> & _).
  rewrite branches_branchLoop. unfold insertAll. rewrite foldl_app. simpl.
  destruct (insertAll_outside BranchRow.branchId Branch.new post
              (<[BranchRow.branchId r := Branch.new r]>
                 (foldl (λ m' row, <[BranchRow.branchId row := Branch.new row]> m')
                        (branches (foldl addNoteRow c noteRows)) pre))
              (BranchRow.branchId r)) as [Heq|?]; [|done].
  unfold insertAll in Heq. by rewrite Heq, lookup_insert_eq.
Qed.

Lemma addResp_then_getBranch_witness :
  getBranch (outcomeCache (addResp [] ([edge "b" "C" "P" false] ++ edge "b" "C" "Q" false :: [])
                                   [] emptyCache)) "b" false
  = (JsObject (Branch.new (edge "b" "C" "Q" false)), []).
Proof.
  apply (addResp_then_getBranch [] [edge "b" "C" "P" false] (edge "b" "C" "Q" false) []
           [] emptyCache false).
  intros H. inversion H.
Defined.

(** ** The lazy loader *)



Lemma unique_from_elem l : ∀ seen x, x ∈ unique_from seen l ↔ x ∈ l ∧ x ∉ seen.
Proof.
  induction l as [|y l IH]; intros seen x; simpl.
  - split; [intros H; by inversion H | intros [H _]; by inversion H].
  - unfold includes. case_bool_decide as Hy.
    + rewrite IH, elem_of_cons. split; [intros [? ?]; auto|].
      intros [[->|?] ?]; [done | auto].
    + rewrite !elem_of_cons, IH, elem_of_app, list_elem_of_singleton. split.
      * intros [->|[? Hx]]; [auto|]. split; [auto|]. intros ?. apply Hx. by left.
      * intros [[->|?] Hx]; [by left|]. destruct (decide (x = y)) as [->|?]; [by left|].
        right. split; [done|]. intros [?|?]; done.
Qed.

Lemma NoDup_unique_from l : ∀ seen, NoDup (unique_from seen l).
Proof.
  induction l as [|y l IH]; intros seen; simpl; [constructor|].
  unfold includes. case_bool_decide; [apply IH|].
  constructor; [|apply IH].
  rewrite unique_from_elem, elem_of_app, list_elem_of_singleton. intros [_ Hy]. apply Hy. by right.
Qed.

Lemma unique_from_sublist l : ∀ seen, unique_from seen l `sublist_of` l.
Proof.
  induction l as [|y l IH]; intros seen; simpl; [constructor|].
  unfold includes. case_bool_decide; [apply sublist_cons | apply sublist_skip]; apply IH.
Qed.

Section LoaderOutcomes.
Variable server_tree_load : list Effect → list string → TreeResp.t.
Variable server_search_note : list Effect → string → option (list SearchResult.t).


(** [getNotes] on ids that are all resident (the helper form). *)
Lemma getNotes_resident fuel noteIds silentNotFoundError w residentNotes :
  Forall2 (λ noteId n, notes (cache w) !! noteId = Some n) noteIds residentNotes →
  getNotes server_tree_load server_search_note fuel noteIds silentNotFoundError w
  = Resolved (map JsObject residentNotes) w.
Proof.
  intros Hres. unfold getNotes, getNotesWith.
  rewrite (missing_nil _ _ _ Hres), reloadNotes_nil.
  rewrite (lookupNote_resident _ _ _ _ Hres).
  by rewrite filter_truthy_objects, no_effects_objects, perform_nil.
Qed.



Lemma getNote_resident fuel noteId silentNotFoundError w n :
  notes (cache w) !! noteId = Some n → noteId ≠ "none" → noteId ≠ "" →
  getNote server_tree_load server_search_note fuel noteId silentNotFoundError w
  = Resolved (JsObject n) w.
Proof.
  intros Hn Hnone Hempty. unfold getNote.
  apply String.eqb_neq in Hnone. apply String.eqb_neq in Hempty.
  rewrite Hnone, Hempty.
  by rewrite (getNotes_resident fuel [noteId] silentNotFoundError w [n])
    by (by repeat constructor).
Qed.

(** X8: however a merge ends, if the child note of one of its branch rows is
    resident afterwards and no later row of the batch links the same child
    and parent, then [getBranchId(parent, child)] on the merged cache
    resolves to the id of that row, without any request and without a log
    line. *)
Theorem getBranchId_after_merge fuel noteRows pre r post attributeRows c es :
  ¬ hasRow post (BranchRow.noteId r) (BranchRow.parentNoteId r) →
  is_Some (notes (outcomeCache (addResp noteRows (pre ++ r :: post) attributeRows c))
           !! BranchRow.noteId r) →
  BranchRow.noteId r ≠ "none" → BranchRow.noteId r ≠ "" →
  getBranchId server_tree_load server_search_note fuel
    (BranchRow.parentNoteId r) (BranchRow.noteId r)
    {| cache := outcomeCache (addResp noteRows (pre ++ r :: post) attributeRows c);
       effects := es |}
  = Resolved (Some (BranchRow.branchId r))
      {| cache := outcomeCache (addResp noteRows (pre ++ r :: post) attributeRows c);
         effects := es |}.
Proof.
  intros Hlast [n1 Hn1] Hnone Hempty. unfold getBranchId.
  rewrite (getNote_resident _ _ _ _ n1) by done. f_equal.
  destruct (addResp_note_adjacency _ _ _ _ _ _ Hn1) as (n0 & _ & _ & _ & -> & _).
  unfold wireAll. rewrite foldl_app. cbn [foldl].
  destruct (agreeAdj_wireAll_self post (BranchRow.noteId r)
              (wireNote r (BranchRow.noteId r)
                 (foldl (λ n' row, wireNote row (BranchRow.noteId r) n') n0 pre)))
    as (_ & Hmap & _).
  destruct (Hmap (BranchRow.parentNoteId r)) as [Heq|?]; [|done].
  unfold wireAll in Heq. rewrite Heq, parentToBranch_wireNote. by rewrite decide_True.
Qed.

Lemma forEachAsync_no_search reload resp l w :
  Forall (λ note, NoteRow.type note ≠ "search") l →
  forEachAsync (reloadSearchNote server_search_note reload resp) l w = Resolved tt w.
Proof.
  induction 1 as [|note l Hnote _ IH]; [done|].
  simpl. unfold reloadSearchNote at 1.
  apply String.eqb_neq in Hnote. by rewrite Hnote.
Qed.

(** X9: [reloadNotes] on a non-empty list asks the server once, for the ids
    of the list each once and in the order of their first occurrence, and
    merges the answer; when the answer holds no search note that is all it
    does: it resolves if the merge completes and rejects with the merge's
    error if it throws. *)
Theorem reloadNotes_one_request fuel noteIds w :
  noteIds ≠ [] →
  Forall (λ note, NoteRow.type note ≠ "search")
         (TreeResp.notes (server_tree_load (effects w) (unique noteIds))) →
  NoDup (unique noteIds)
  ∧ (∀ x, x ∈ unique noteIds ↔ x ∈ noteIds)
  ∧ unique noteIds `sublist_of` noteIds
  ∧ reloadNotes server_tree_load server_search_note (S fuel) noteIds w
    = match addResp (TreeResp.notes (server_tree_load (effects w) (unique noteIds)))
                    (TreeResp.branches (server_tree_load (effects w) (unique noteIds)))
                    (TreeResp.attributes (server_tree_load (effects w) (unique noteIds)))
                    (cache w) with
      | Done c1 =>
          Resolved tt {| cache := c1;
                         effects := effects w ++ [ServerPost "tree/load" (unique noteIds)] |}
      | Raised e c1 =>
          Rejected e {| cache := c1;
                        effects := effects w ++ [ServerPost "tree/load" (unique noteIds)] |}
      end.
Proof.
  intros Hne Hnosearch. split_and!.
  - apply NoDup_unique_from.
  - intros x. unfold unique. rewrite unique_from_elem. split; [by intros [? _]|].
    intros ?. split; [done|]. intros Hnil. by inversion Hnil.
  - apply unique_from_sublist.
  - destruct noteIds as [|noteId rest]; [done|].
    cbn [reloadNotes perform cache].
    destruct (addResp _ _ _ (cache w)) as [c1|e c1]; [|done].
    by rewrite forEachAsync_no_search.
Qed.

(** X10: when the answer to [reloadNotes] holds a search note whose search
    the server answers with a falsy value, and no search note before it,
    [reloadNotes] rejects with the error "Search note <id> failed.", having
    merged the answer and asked the server twice (the load and the search). *)
Theorem reloadNotes_search_failure fuel noteIds w pre note post c1 :
  noteIds ≠ [] →
  TreeResp.notes (server_tree_load (effects w) (unique noteIds)) = pre ++ note :: post →
  Forall (λ note, NoteRow.type note ≠ "search") pre →
  NoteRow.type note = "search" →
  addResp (TreeResp.notes (server_tree_load (effects w) (unique noteIds)))
          (TreeResp.branches (server_tree_load (effects w) (unique noteIds)))
          (TreeResp.attributes (server_tree_load (effects w) (unique noteIds)))
          (cache w) = Done c1 →
  server_search_note (effects w ++ [ServerPost "tree/load" (unique noteIds)])
                     (NoteRow.noteId note) = None →
  reloadNotes server_tree_load server_search_note (S fuel) noteIds w
  = Rejected (Error ("Search note " +:+ NoteRow.noteId note +:+ " failed."))
      {| cache := c1;
         effects := (effects w ++ [ServerPost "tree/load" (unique noteIds)])
                    ++ [ServerGet ("search-note/" +:+ NoteRow.noteId note)] |}.
Proof.
  intros Hne Hnotes Hpre Htype Hmerge Hsearch.
  destruct noteIds as [|noteId rest]; [done|].
  cbn [reloadNotes perform cache]. rewrite Hmerge, Hnotes.
  generalize (with_cache {| cache := cache w;
                            effects := effects w
                                       ++ [ServerPost "tree/load" (unique (noteId :: rest))] |}
                         c1).
  intros w1.
  assert (Hgen : ∀ w1, effects w1 = effects w ++ [ServerPost "tree/load" (unique (noteId :: rest))] →
            cache w1 = c1 →
            forEachAsync
              (reloadSearchNote server_search_note
                 (reloadNotes server_tree_load server_search_note fuel)
                 (server_tree_load (effects w) (unique (noteId :: rest))))
              (pre ++ note :: post) w1
            = Rejected (Error ("Search note " +:+ NoteRow.noteId note +:+ " failed."))
                {| cache := c1;
                   effects := (effects w ++ [ServerPost "tree/load" (unique (noteId :: rest))])
                              ++ [ServerGet ("search-note/" +:+ NoteRow.noteId note)] |}).
  { clear w1 Hnotes. intros w1 Heff Hcache.
    induction Hpre as [|x pre Hx _ IH]; simpl.
    - unfold reloadSearchNote. rewrite Htype. simpl. rewrite Heff, Hsearch.
      unfold perform. by rewrite Heff, Hcache.
    - unfold reloadSearchNote at 1. apply String.eqb_neq in Hx. rewrite Hx. apply IH. }
  apply Hgen; reflexivity.
Qed.
End LoaderOutcomes.


Lemma getBranchId_after_merge_witness :
  getBranchId silentServerLoad silentServerSearch 0 "Q" "C"
    {| cache := outcomeCache (addResp [] ([] ++ edge "b2" "C" "Q" false :: []) []
                                      parentAndChild);
       effects := [] |}
  = Resolved (Some "b2")
      {| cache := outcomeCache (addResp [] ([] ++ edge "b2" "C" "Q" false :: []) []
                                        parentAndChild);
         effects := [] |}.
Proof.
  apply (getBranchId_after_merge silentServerLoad silentServerSearch 0 []
           [] (edge "b2" "C" "Q" false) [] [] parentAndChild []).
  - apply hasRow_nil.
  - vm_compute. by eexists.
  - discriminate.
  - discriminate.
Defined.

Lemma reloadNotes_one_request_witness :
  NoDup (unique ["Z"; "Y"; "Z"])
  ∧ (∀ x, x ∈ unique ["Z"; "Y"; "Z"] ↔ x ∈ ["Z"; "Y"; "Z"])
  ∧ unique ["Z"; "Y"; "Z"] `sublist_of` ["Z"; "Y"; "Z"]
  ∧ reloadNotes textServerLoad silentServerSearch 1 ["Z"; "Y"; "Z"] parentAndChildWorld
    = match addResp
              (TreeResp.notes (textServerLoad (effects parentAndChildWorld)
                                              (unique ["Z"; "Y"; "Z"])))
              (TreeResp.branches (textServerLoad (effects parentAndChildWorld)
                                                 (unique ["Z"; "Y"; "Z"])))
              (TreeResp.attributes (textServerLoad (effects parentAndChildWorld)
                                                   (unique ["Z"; "Y"; "Z"])))
              (cache parentAndChildWorld) with
      | Done c1 =>
          Resolved tt {| cache := c1;
                         effects := effects parentAndChildWorld
                                    ++ [ServerPost "tree/load" (unique ["Z"; "Y"; "Z"])] |}
      | Raised e c1 =>
          Rejected e {| cache := c1;
                        effects := effects parentAndChildWorld
                                   ++ [ServerPost "tree/load" (unique ["Z"; "Y"; "Z"])] |}
      end.
Proof.
  apply (reloadNotes_one_request textServerLoad silentServerSearch 0 ["Z"; "Y"; "Z"]
           parentAndChildWorld).
  - discriminate.
  - vm_compute. repeat constructor; discriminate.
Defined.

Lemma reloadNotes_search_failure_witness :
  reloadNotes searchServerLoad silentServerSearch 1 ["S"] parentAndChildWorld
  = Rejected (Error ("Search note " +:+ NoteRow.noteId searchNote +:+ " failed."))
      {| cache := outcomeCache (addResp [searchNote] [] [] parentAndChild);
         effects := (effects parentAndChildWorld ++ [ServerPost "tree/load" (unique ["S"])])
                    ++ [ServerGet ("search-note/" +:+ NoteRow.noteId searchNote)] |}.
Proof.
  apply (reloadNotes_search_failure searchServerLoad silentServerSearch 0 ["S"]
           parentAndChildWorld [] searchNote []
           (outcomeCache (addResp [searchNote] [] [] parentAndChild))).
  - discriminate.
  - reflexivity.
  - constructor.
  - reflexivity.
  - reflexivity.
  - reflexivity.
Defined.

(** ** What a sync batch never does to the notes *)

Lemma dom_notes_mutateNote k f c : dom (notes (mutateNote k f c)) = dom (notes c).
Proof. unfold mutateNote. simpl. apply dom_alter_L. Qed.

Lemma dom_notes_whenResident r k f c : dom (notes (whenResident r k f c)) = dom (notes c).
Proof. destruct r; [apply dom_notes_mutateNote | done]. Qed.

Lemma dom_notes_syncNote st sync : dom (notes (fst (syncNote st sync))) = dom (notes (fst st)).
Proof.
  destruct st as [c lr], sync as [e s r| | | | | |]; try done.
  simpl. destruct (notes c !! e); [apply dom_notes_mutateNote | done].
Qed.

Lemma dom_notes_syncBranch st sync :
  dom (notes (fst (syncBranch st sync))) = dom (notes (fst st)).
Proof.
  destruct st as [c lr], sync as [|e s r| | | | |]; try done.
  unfold syncBranch.
  destruct (branches c !! e), (BranchRow.isDeleted r); simpl;
    rewrite ?dom_notes_whenResident; try done.
  destruct (isResident c (BranchRow.noteId r) || isResident c (BranchRow.parentNoteId r));
    simpl; by rewrite ?dom_notes_whenResident.
Qed.

Lemma notes_applyPositions positions c : notes (foldl applyPosition c positions) = notes c.
Proof.
  apply foldl_unchanged. intros c' [b p] _. unfold applyPosition.
  by destruct (branches c' !! b).
Qed.

Lemma dom_notes_syncNoteReordering st sync :
  dom (notes (fst (syncNoteReordering st sync))) = dom (notes (fst st)).
Proof.
  destruct st as [c lr], sync as [| |e s positions| | | |]; try done.
  simpl. by rewrite notes_applyPositions.
Qed.

Lemma dom_notes_syncAttribute st sync :
  dom (notes (fst (syncAttribute st sync))) = dom (notes (fst st)).
Proof.
  destruct st as [c lr], sync as [| | |e s r| | |]; try done.
  unfold syncAttribute.
  destruct (attributes c !! e), (AttributeRow.isDeleted r); simpl;
    rewrite ?dom_notes_whenResident; try done.
  destruct (isResident c (AttributeRow.noteId r)
            || String.eqb (AttributeRow.type r) "relation"
               && isResident c (AttributeRow.value r));
    simpl; by rewrite ?dom_notes_whenResident.
Qed.

Lemma dom_notes_syncNoteContent st sync :
  dom (notes (fst (syncNoteContent st sync))) = dom (notes (fst st)).
Proof. by destruct st as [c lr], sync. Qed.

Lemma dom_notes_syncNoteRevision st sync :
  dom (notes (fst (syncNoteRevision st sync))) = dom (notes (fst st)).
Proof. by destruct st as [c lr], sync. Qed.

(** X11: a sync batch never loads and never unloads a note: the ids of the
    resident notes are the same after [processSyncRows] as before. *)
Theorem processSyncRows_keeps_resident_notes syncRows c :
  dom (notes (fst (processSyncRows syncRows c))) = dom (notes c).
Proof.
  unfold processSyncRows.
  rewrite (foldl_unchanged (λ st, dom (notes (fst st))) syncNoteRevision)
    by (intros; apply dom_notes_syncNoteRevision).
  rewrite (foldl_unchanged (λ st, dom (notes (fst st))) syncNoteContent)
    by (intros; apply dom_notes_syncNoteContent).
  rewrite (foldl_unchanged (λ st, dom (notes (fst st))) syncAttribute)
    by (intros; apply dom_notes_syncAttribute).
  rewrite (foldl_unchanged (λ st, dom (notes (fst st))) syncNoteReordering)
    by (intros; apply dom_notes_syncNoteReordering).
  rewrite (foldl_unchanged (λ st, dom (notes (fst st))) syncBranch)
    by (intros; apply dom_notes_syncBranch).
  by rewrite (foldl_unchanged (λ st, dom (notes (fst st))) syncNote)
    by (intros; apply dom_notes_syncNote).
Qed.

(** ** What the change-set of a sync batch lists *)

Lemma foldl_collect {S A B} (g : S → list B) (h : A → option B) (f : S → A → S) l : ∀ st,
  (∀ st' x, g (f st' x) = g st' ++ option_list (h x)) →
  g (foldl f st l) = g st ++ omap h l.
Proof.
  induction l as [|x l IH]; intros st Hstep; simpl; [by rewrite app_nil_r|].
  rewrite IH, Hstep, <- app_assoc by done. f_equal. unfold omap. simpl.
  by destruct (h x).
Qed.

Lemma omap_ofKind {B} (h : SyncRow.t → option B) name l :
  (∀ x, is_Some (h x) → SyncRow.entityName x = name) →
  omap h (ofKind name l) = omap h l.
Proof.
  intros Hname. induction l as [|x l IH]; [done|].
  rewrite ofKind_cons. unfold omap in *. simpl.
  destruct (String.eqb (SyncRow.entityName x) name) eqn:Heq; simpl; rewrite IH; [done|].
  destruct (h x) eqn:Hx; [|done].
  apply String.eqb_neq in Heq. destruct Heq. apply Hname. by eexists.
Qed.

Lemma isResident_dom c c' k : dom (notes c) = dom (notes c') → isResident c k = isResident c' k.
Proof.
  intros H. apply isResident_ext. by rewrite <- !elem_of_dom, H.
Qed.

Lemma foldl_syncNote_changeset c l : ∀ st,
  dom (notes (fst st)) = dom (notes c) →
  LoadResults.notes (snd (foldl syncNote st l))
  = LoadResults.notes (snd st) ++ omap (residentNoteEntry c) l.
Proof.
  induction l as [|x l IH]; intros st Hdom; simpl; [by rewrite app_nil_r|].
  rewrite IH by by rewrite dom_notes_syncNote.
  destruct st as [c' lr]. simpl in Hdom. unfold omap. simpl.
  destruct x as [e s r| | | | | |]; simpl; try done.
  rewrite <- (isResident_dom c' c e Hdom).
  destruct (notes c' !! e) eqn:He; simpl.
  - rewrite (isResident_Some _ _ _ He). by rewrite <- app_assoc.
  - by rewrite (isResident_None _ _ He).
Qed.

(** The list [g] of the change-set is left alone by a pass [f]. *)
Ltac changeset_unchanged g f :=
  rewrite (foldl_unchanged (λ st : SyncState, g (snd st)) f)
    by (intros [c' lr'] x' _; destruct x'; try done; unfold f;
        repeat (match goal with
                | |- context [match ?m !! ?k with _ => _ end] => destruct (m !! k)
                | |- context [if ?b then _ else _] => destruct b
                end; simpl; try done)).

(** X12: the note list of the change-set holds, in batch order, the id and
    origin of exactly those note events whose note was resident when
    [processSyncRows] was called: an event for a note that is not loaded is
    neither applied nor reported. *)
Theorem processSyncRows_changeset_notes syncRows c :
  LoadResults.notes (snd (processSyncRows syncRows c)) = omap (residentNoteEntry c) syncRows.
Proof.
  unfold processSyncRows.
  changeset_unchanged LoadResults.notes syncNoteRevision.
  changeset_unchanged LoadResults.notes syncNoteContent.
  changeset_unchanged LoadResults.notes syncAttribute.
  changeset_unchanged LoadResults.notes syncNoteReordering.
  changeset_unchanged LoadResults.notes syncBranch.
  rewrite (foldl_syncNote_changeset c) by done. simpl.
  apply omap_ofKind. intros x [y Hy]. by destruct x.
Qed.

(** X13: every reordering, note-content and note-revision event of a batch is
    reported in the change-set, in batch order and whatever the cache holds,
    and nothing else is reported in those three lists. *)
Theorem processSyncRows_changeset_notifications syncRows c :
  LoadResults.noteReorderings (snd (processSyncRows syncRows c)) = omap reorderingEntry syncRows
  ∧ LoadResults.noteContents (snd (processSyncRows syncRows c)) = omap contentEntry syncRows
  ∧ LoadResults.noteRevisions (snd (processSyncRows syncRows c)) = omap revisionEntry syncRows.
Proof.
  unfold processSyncRows. split_and!.
  - changeset_unchanged LoadResults.noteReorderings syncNoteRevision.
    changeset_unchanged LoadResults.noteReorderings syncNoteContent.
    changeset_unchanged LoadResults.noteReorderings syncAttribute.
    rewrite (foldl_collect (λ st : SyncState, LoadResults.noteReorderings (snd st))
               reorderingEntry syncNoteReordering)
      by (intros [c' lr'] x'; destruct x'; simpl; by rewrite ?app_nil_r).
    changeset_unchanged LoadResults.noteReorderings syncBranch.
    changeset_unchanged LoadResults.noteReorderings syncNote.
    simpl. apply omap_ofKind. intros x [y Hy]. by destruct x.
  - changeset_unchanged LoadResults.noteContents syncNoteRevision.
    rewrite (foldl_collect (λ st : SyncState, LoadResults.noteContents (snd st))
               contentEntry syncNoteContent)
      by (intros [c' lr'] x'; destruct x'; simpl; by rewrite ?app_nil_r).
    changeset_unchanged LoadResults.noteContents syncAttribute.
    changeset_unchanged LoadResults.noteContents syncNoteReordering.
    changeset_unchanged LoadResults.noteContents syncBranch.
    changeset_unchanged LoadResults.noteContents syncNote.
    simpl. apply omap_ofKind. intros x [y Hy]. by destruct x.
  - rewrite (foldl_collect (λ st : SyncState, LoadResults.noteRevisions (snd st))
               revisionEntry syncNoteRevision)
      by (intros [c' lr'] x'; destruct x'; simpl; by rewrite ?app_nil_r).
    changeset_unchanged LoadResults.noteRevisions syncNoteContent.
    changeset_unchanged LoadResults.noteRevisions syncAttribute.
    changeset_unchanged LoadResults.noteRevisions syncNoteReordering.
    changeset_unchanged LoadResults.noteRevisions syncBranch.
    changeset_unchanged LoadResults.noteRevisions syncNote.
    simpl. apply omap_ofKind. intros x [y Hy]. by destruct x.
Qed.

(** ** Cached note complements across a sync batch *)

Lemma promises_whenResident r k f c :
  noteComplementPromises (whenResident r k f c) = noteComplementPromises c.
Proof. by destruct r. Qed.

Lemma promises_applyPositions positions c :
  noteComplementPromises (foldl applyPosition c positions) = noteComplementPromises c.
Proof.
  apply foldl_unchanged. intros c' [b p] _. unfold applyPosition.
  by destruct (branches c' !! b).
Qed.

Lemma promises_syncNote st sync :
  noteComplementPromises (fst (syncNote st sync)) = noteComplementPromises (fst st).
Proof.
  destruct st as [c lr], sync as [e s r| | | | | |]; try done.
  simpl. by destruct (notes c !! e).
Qed.

Lemma promises_syncBranch st sync :
  noteComplementPromises (fst (syncBranch st sync)) = noteComplementPromises (fst st).
Proof.
  destruct st as [c lr], sync as [|e s r| | | | |]; try done.
  unfold syncBranch.
  destruct (branches c !! e), (BranchRow.isDeleted r); simpl;
    rewrite ?promises_whenResident; try done.
  destruct (isResident c (BranchRow.noteId r) || isResident c (BranchRow.parentNoteId r));
    simpl; by rewrite ?promises_whenResident.
Qed.

Lemma promises_syncNoteReordering st sync :
  noteComplementPromises (fst (syncNoteReordering st sync)) = noteComplementPromises (fst st).
Proof.
  destruct st as [c lr], sync as [| |e s positions| | | |]; try done.
  simpl. by rewrite promises_applyPositions.
Qed.

Lemma promises_syncAttribute st sync :
  noteComplementPromises (fst (syncAttribute st sync)) = noteComplementPromises (fst st).
Proof.
  destruct st as [c lr], sync as [| | |e s r| | |]; try done.
  unfold syncAttribute.
  destruct (attributes c !! e), (AttributeRow.isDeleted r); simpl;
    rewrite ?promises_whenResident; try done.
  destruct (isResident c (AttributeRow.noteId r)
            || String.eqb (AttributeRow.type r) "relation"
               && isResident c (AttributeRow.value r));
    simpl; by rewrite ?promises_whenResident.
Qed.

Lemma promises_syncNoteRevision st sync :
  noteComplementPromises (fst (syncNoteRevision st sync)) = noteComplementPromises (fst st).
Proof. by destruct st as [c lr], sync. Qed.

Lemma promises_contentPass l : ∀ st,
  noteComplementPromises (fst (foldl syncNoteContent st l))
  = noteComplementPromises (fst st) ∖ list_to_set (omap contentEntry l).*1.
Proof.
  induction l as [|x l IH]; intros st; simpl.
  - by rewrite difference_empty_L.
  - rewrite IH. destruct st as [c lr], x; simpl; try done.
    unfold omap. simpl. by rewrite difference_difference_l_L.
Qed.

(** X14: after a sync batch the note complements still cached are those
    cached before, less the notes the batch carries a note-content event
    for; no other event evicts a complement and none adds one. *)
Theorem processSyncRows_evicts_changed_contents syncRows c :
  noteComplementPromises (fst (processSyncRows syncRows c))
  = noteComplementPromises c ∖ list_to_set (omap contentEntry syncRows).*1.
Proof.
  unfold processSyncRows.
  rewrite (foldl_unchanged (λ st, noteComplementPromises (fst st)) syncNoteRevision)
    by (intros; apply promises_syncNoteRevision).
  rewrite promises_contentPass.
  rewrite (foldl_unchanged (λ st, noteComplementPromises (fst st)) syncAttribute)
    by (intros; apply promises_syncAttribute).
  rewrite (foldl_unchanged (λ st, noteComplementPromises (fst st)) syncNoteReordering)
    by (intros; apply promises_syncNoteReordering).
  rewrite (foldl_unchanged (λ st, noteComplementPromises (fst st)) syncBranch)
    by (intros; apply promises_syncBranch).
  rewrite (foldl_unchanged (λ st, noteComplementPromises (fst st)) syncNote)
    by (intros; apply promises_syncNote).
  simpl. do 3 f_equal. apply omap_ofKind. intros x [y Hy]. by destruct x.
Qed.

(** ** Reordering events *)

Lemma branches_whenResident r k f c : branches (whenResident r k f c) = branches c.
Proof. by destruct r. Qed.

Lemma branches_applyPosition c b p :
  branches (applyPosition c (b, p))
  = alter (λ br, Branch.set_notePosition br p) b (branches c).
Proof.
  unfold applyPosition. destruct (branches c !! b) eqn:Hb; [done|].
  symmetry. apply alter_id. intros x Hx. congruence.
Qed.

Lemma set_notePosition_twice br p q :
  Branch.set_notePosition (Branch.set_notePosition br p) q = Branch.set_notePosition br q.
Proof. reflexivity. Qed.

Lemma branches_applyPositions positions : ∀ c b,
  branches (foldl applyPosition c positions) !! b
  = match lastPosition positions b with
    | Some p => (λ br, Branch.set_notePosition br p) <$> branches c !! b
    | None => branches c !! b
    end.
Proof.
  induction positions as [|[b' p'] rest IH]; intros c b; [done|].
  cbn [foldl lastPosition]. rewrite IH, branches_applyPosition, lookup_alter.
  destruct (lastPosition rest b) as [q|]; case_decide; subst; try done.
  destruct (branches c !! b); [|done]. simpl. by rewrite set_notePosition_twice.
Qed.

Lemma reorderingPass_cache l : ∀ st,
  fst (foldl syncNoteReordering st l)
  = foldl applyPosition (fst st) (concat (omap positionsOf l)).
Proof.
  induction l as [|x l IH]; intros st; [done|].
  cbn [foldl]. rewrite IH. destruct st as [c lr], x; try done.
  unfold omap. simpl. by rewrite foldl_app.
Qed.

Lemma branches_syncNote st sync : branches (fst (syncNote st sync)) = branches (fst st).
Proof.
  destruct st as [c lr], sync as [e s r| | | | | |]; try done.
  simpl. by destruct (notes c !! e).
Qed.

Lemma branches_syncAttribute st sync :
  branches (fst (syncAttribute st sync)) = branches (fst st).
Proof.
  destruct st as [c lr], sync as [| | |e s r| | |]; try done.
  unfold syncAttribute.
  destruct (attributes c !! e), (AttributeRow.isDeleted r); simpl;
    rewrite ?branches_whenResident; try done.
  destruct (isResident c (AttributeRow.noteId r)
            || String.eqb (AttributeRow.type r) "relation"
               && isResident c (AttributeRow.value r));
    simpl; by rewrite ?branches_whenResident.
Qed.

Lemma branches_syncNoteContent st sync :
  branches (fst (syncNoteContent st sync)) = branches (fst st).
Proof. by destruct st as [c lr], sync. Qed.

Lemma branches_syncNoteRevision st sync :
  branches (fst (syncNoteRevision st sync)) = branches (fst st).
Proof. by destruct st as [c lr], sync. Qed.

(** X15: in a sync batch without branch events, a branch ends with the
    position the last reordering entry for its id gives it, every other field
    as it was; a branch no entry names is left as it was, and an entry for a
    branch that is not resident creates nothing. *)
Theorem processSyncRows_reordering syncRows c branchId :
  ofKind "branches" syncRows = [] →
  branches (fst (processSyncRows syncRows c)) !! branchId
  = match lastPosition (concat (omap positionsOf syncRows)) branchId with
    | Some p => (λ br, Branch.set_notePosition br p) <$> branches c !! branchId
    | None => branches c !! branchId
    end.
Proof.
  intros Hnone. unfold processSyncRows. rewrite Hnone. cbn [foldl].
  rewrite (foldl_unchanged (λ st, branches (fst st)) syncNoteRevision)
    by (intros; apply branches_syncNoteRevision).
  rewrite (foldl_unchanged (λ st, branches (fst st)) syncNoteContent)
    by (intros; apply branches_syncNoteContent).
  rewrite (foldl_unchanged (λ st, branches (fst st)) syncAttribute)
    by (intros; apply branches_syncAttribute).
  rewrite reorderingPass_cache, branches_applyPositions.
  rewrite (foldl_unchanged (λ st, branches (fst st)) syncNote)
    by (intros; apply branches_syncNote).
  rewrite (omap_ofKind positionsOf) by (intros x [y Hy]; by destruct x).
  done.
Qed.

Lemma processSyncRows_reordering_witness :
  branches (fst (processSyncRows
              [SyncRow.NoteReordering "P" "src" [("b", 10%Z); ("zz", 20%Z); ("b", 30%Z)]]
              parentAndChild)) !! "b"
  = (λ br, Branch.set_notePosition br 30%Z) <$> branches parentAndChild !! "b".
Proof.
  apply (processSyncRows_reordering
           [SyncRow.NoteReordering "P" "src" [("b", 10%Z); ("zz", 20%Z); ("b", 30%Z)]]
           parentAndChild "b").
  reflexivity.
Defined.

(** ** Events about things the cache does not hold *)




(** ** Lists and indices of a note stay in step *)

Lemma consistentNote_new row : consistentNote (NoteShort.new row).
Proof.
  unfold consistentNote. simpl. split_and!; try apply NoDup_nil_2.
  - intros p. rewrite lookup_empty. split; [by intros ?%elem_of_nil | by intros [? ?]].
  - intros p. rewrite lookup_empty. split; [by intros ?%elem_of_nil | by intros [? ?]].
Qed.

Lemma consistentNote_update n row : consistentNote n → consistentNote (NoteShort.update n row).
Proof. done. Qed.

Lemma consistentNote_addParent n p b :
  consistentNote n → consistentNote (NoteShort.addParent n p b).
Proof.
  intros (Hp & Hc & Ha & Ht & Hpi & Hci). unfold consistentNote. simpl.
  split_and!; auto using NoDup_push_new.
  intros x. rewrite elem_of_push_new, lookup_insert_is_Some, Hpi.
  destruct (decide (p = x)); intuition congruence.
Qed.

Lemma consistentNote_addChild n ch b :
  consistentNote n → consistentNote (NoteShort.addChild n ch b).
Proof.
  intros (Hp & Hc & Ha & Ht & Hpi & Hci). unfold consistentNote. simpl.
  split_and!; auto using NoDup_push_new.
  intros x. rewrite elem_of_push_new, lookup_insert_is_Some, Hci.
  destruct (decide (ch = x)); intuition congruence.
Qed.

Lemma consistentNote_dropParent n p : consistentNote n → consistentNote (dropParent p n).
Proof.
  intros (Hp & Hc & Ha & Ht & Hpi & Hci). unfold consistentNote. simpl.
  split_and!; auto using NoDup_without.
  intros x. rewrite elem_of_without, lookup_delete_is_Some, Hpi. intuition congruence.
Qed.

Lemma consistentNote_dropChild n ch : consistentNote n → consistentNote (dropChild ch n).
Proof.
  intros (Hp & Hc & Ha & Ht & Hpi & Hci). unfold consistentNote. simpl.
  split_and!; auto using NoDup_without.
  intros x. rewrite elem_of_without, lookup_delete_is_Some, Hci. intuition congruence.
Qed.

Lemma consistentNote_set_attributes n l :
  NoDup l → consistentNote n → consistentNote (NoteShort.set_attributes n l).
Proof. intros Hl (Hp & Hc & Ha & Ht & Hpi & Hci). by unfold consistentNote. Qed.

Lemma consistentNote_set_targetRelations n l :
  NoDup l → consistentNote n → consistentNote (NoteShort.set_targetRelations n l).
Proof. intros Hl (Hp & Hc & Ha & Ht & Hpi & Hci). by unfold consistentNote. Qed.

Lemma consistentNote_detachedNote M old k n :
  consistentNote n → consistentNote (detachedNote M old k n).
Proof.
  intros H. unfold detachedNote.
  repeat case_decide; auto using consistentNote_dropParent, consistentNote_dropChild.
Qed.

Lemma consistentNote_wireNote row k n : consistentNote n → consistentNote (wireNote row k n).
Proof.
  intros H. unfold wireNote.
  repeat case_decide; auto using consistentNote_addParent, consistentNote_addChild.
Qed.

Lemma consistentNote_attrNote r row k n : consistentNote n → consistentNote (attrNote r row k n).
Proof.
  intros H. unfold attrNote. case_decide; [|done].
  assert (H1 : consistentNote (NoteShort.set_attributes n
                 (push_new (NoteShort.attributes n) (AttributeRow.attributeId row)))).
  { apply consistentNote_set_attributes; [|done]. apply NoDup_push_new, H. }
  destruct (_ && _); [|done].
  apply consistentNote_set_targetRelations; [|done]. apply NoDup_push_new, H1.
Qed.

Lemma consistent_lookup c c' :
  (∀ k, ∃ f, (∀ n, consistentNote n → consistentNote (f n))
             ∧ notes c' !! k = f <$> notes c !! k) →
  consistent c → consistent c'.
Proof.
  intros Hstep Hc k n' Hn'. destruct (Hstep k) as (f & Hf & Hk).
  rewrite Hk in Hn'. destruct (notes c !! k) as [n|] eqn:Hn; [|done].
  inversion Hn'; subst n'. by apply Hf, (Hc k).
Qed.

Lemma consistent_mutateNote k f c :
  (∀ n, consistentNote n → consistentNote (f n)) →
  consistent c → consistent (mutateNote k f c).
Proof.
  intros Hf. apply consistent_lookup. intros k'.
  destruct (decide (k = k')) as [->|Hne].
  - exists f. split; [done|]. unfold mutateNote. simpl. by rewrite lookup_alter_eq.
  - exists id. split; [done|]. unfold mutateNote. simpl.
    rewrite lookup_alter_ne by done. by destruct (notes c !! k').
Qed.

Lemma consistent_whenResident r k f c :
  (∀ n, consistentNote n → consistentNote (f n)) →
  consistent c → consistent (whenResident r k f c).
Proof. destruct r; [apply consistent_mutateNote | done]. Qed.

Lemma consistent_addNoteRow c row : consistent c → consistent (addNoteRow c row).
Proof.
  intros Hc k n' Hn'. destruct (decide (k = NoteRow.noteId row)) as [->|Hk].
  - rewrite notes_addNoteRow_self in Hn'. inversion Hn'; subst.
    apply consistentNote_new.
  - destruct (notes c !! NoteRow.noteId row) as [old|] eqn:Hold.
    + rewrite (notes_addNoteRow_other _ _ old) in Hn' by done.
      destruct (notes c !! k) as [n|] eqn:Hn; [|done]. simpl in Hn'. inversion Hn'; subst n'.
      by apply consistentNote_detachedNote, (Hc k).
    + rewrite notes_addNoteRow, lookup_insert_ne, detachOldNote_absent in Hn' by done.
      by apply (Hc k).
Qed.

Lemma consistent_addBranchRow c row : consistent c → consistent (addBranchRow c row).
Proof.
  apply consistent_lookup. intros k. exists (wireNote row k).
  split; [apply consistentNote_wireNote | apply notes_addBranchRow_lookup].
Qed.

Lemma consistent_attrLoop rows : ∀ c,
  consistent c → consistent (outcomeCache (forEachRaising addAttributeRow c rows)).
Proof.
  induction rows as [|row rows IH]; intros c Hc; simpl; [done|].
  destruct (notes c !! AttributeRow.noteId row) as [n|] eqn:Hn.
  - rewrite addAttributeRow_resident by by eexists.
    apply IH. revert Hc. apply consistent_lookup. intros k.
    exists (attrNote (isResident c (AttributeRow.value row)) row k).
    split; [apply consistentNote_attrNote | apply notes_attributed].
  - unfold addAttributeRow. cbn [notes set_attributes]. by rewrite Hn.
Qed.

(** X17: a merge keeps the notes consistent, however it ends: if no resident
    note lists a parent, a child, an attribute or a relation twice and each
    note's branch indices have an entry for exactly the parents and children
    it lists, the same holds after [addResp]. *)
Theorem addResp_keeps_notes_consistent noteRows branchRows attributeRows c :
  consistent c →
  consistent (outcomeCache (addResp noteRows branchRows attributeRows c)).
Proof.
  intros Hc. unfold addResp. apply consistent_attrLoop.
  apply (foldl_invariant consistent).
  - apply (foldl_invariant consistent); [done|].
    intros c' row _. apply consistent_addNoteRow.
  - intros c' row _. apply consistent_addBranchRow.
Qed.

Lemma consistent_emptyCache : consistent emptyCache.
Proof. intros k n Hn. simpl in Hn. by rewrite lookup_empty in Hn. Qed.

Lemma addResp_keeps_notes_consistent_witness :
  consistent (outcomeCache (addResp [textNote "P"; textNote "C"] [edge "b" "C" "P" false]
                                    [relation "a1" "C" "P" false] emptyCache)).
Proof.
  apply (addResp_keeps_notes_consistent [textNote "P"; textNote "C"]
           [edge "b" "C" "P" false] [relation "a1" "C" "P" false] emptyCache).
  intros k n Hn. simpl in Hn. by rewrite lookup_empty in Hn.
Defined.

Lemma consistent_syncNote st sync : consistent (fst st) → consistent (fst (syncNote st sync)).
Proof.
  destruct st as [c lr], sync as [e s r| | | | | |]; try done.
  simpl. destruct (notes c !! e); [|done].
  apply consistent_mutateNote. intros n. apply consistentNote_update.
Qed.

Lemma consistent_syncBranch st sync :
  consistent (fst st) → consistent (fst (syncBranch st sync)).
Proof.
  destruct st as [c lr], sync as [|e s r| | | | |]; try done.
  intros Hc. simpl in Hc. unfold syncBranch.
  destruct (branches c !! e), (BranchRow.isDeleted r); simpl; try done.
  - apply consistent_whenResident; [intros n; apply consistentNote_dropChild|].
    apply consistent_whenResident; [intros n; apply consistentNote_dropParent|done].
  - apply consistent_whenResident; [intros n; apply consistentNote_addChild|].
    apply consistent_whenResident; [intros n; apply consistentNote_addParent|done].
  - destruct (isResident c (BranchRow.noteId r) || isResident c (BranchRow.parentNoteId r));
      simpl; [|done].
    apply consistent_whenResident; [intros n; apply consistentNote_addChild|].
    apply consistent_whenResident; [intros n; apply consistentNote_addParent|done].
Qed.

Lemma consistent_syncNoteReordering st sync :
  consistent (fst st) → consistent (fst (syncNoteReordering st sync)).
Proof.
  destruct st as [c lr], sync as [| |e s positions| | | |]; try done.
  intros Hc k n. simpl. rewrite notes_applyPositions. apply Hc.
Qed.

Lemma consistent_syncAttribute st sync :
  consistent (fst st) → consistent (fst (syncAttribute st sync)).
Proof.
  destruct st as [c lr], sync as [| | |e s r| | |]; try done.
  intros Hc. simpl in Hc. unfold syncAttribute.
  destruct (attributes c !! e), (AttributeRow.isDeleted r); simpl; try done.
  - apply consistent_whenResident.
    { intros n Hn. apply consistentNote_set_targetRelations; [|done].
      apply NoDup_without, Hn. }
    apply consistent_whenResident; [|done].
    intros n Hn. apply consistentNote_set_attributes; [|done]. apply NoDup_without, Hn.
  - destruct (isResident c (AttributeRow.noteId r)
              || String.eqb (AttributeRow.type r) "relation"
                 && isResident c (AttributeRow.value r)); simpl; [|done].
    apply consistent_whenResident.
    { intros n Hn. apply consistentNote_set_attributes; [|done]. apply NoDup_push_new, Hn. }
    apply consistent_whenResident; [|done].
    intros n Hn. apply consistentNote_set_attributes; [|done]. apply NoDup_push_new, Hn.
Qed.

Lemma consistent_syncNoteContent st sync :
  consistent (fst st) → consistent (fst (syncNoteContent st sync)).
Proof. by destruct st as [c lr], sync. Qed.

Lemma consistent_syncNoteRevision st sync :
  consistent (fst st) → consistent (fst (syncNoteRevision st sync)).
Proof. by destruct st as [c lr], sync. Qed.

(** X18: a sync batch keeps the notes consistent: if no resident note lists
    a parent, a child, an attribute or a relation twice and each note's
    branch indices have an entry for exactly the parents and children it
    lists, the same holds after [processSyncRows], whatever the events. *)
Theorem processSyncRows_keeps_notes_consistent syncRows c :
  consistent c → consistent (fst (processSyncRows syncRows c)).
Proof.
  intros Hc. unfold processSyncRows.
  apply (foldl_invariant (λ st, consistent (fst st)));
    [|intros; by apply consistent_syncNoteRevision].
  apply (foldl_invariant (λ st, consistent (fst st)));
    [|intros; by apply consistent_syncNoteContent].
  apply (foldl_invariant (λ st, consistent (fst st)));
    [|intros; by apply consistent_syncAttribute].
  apply (foldl_invariant (λ st, consistent (fst st)));
    [|intros; by apply consistent_syncNoteReordering].
  apply (foldl_invariant (λ st, consistent (fst st)));
    [|intros; by apply consistent_syncBranch].
  apply (foldl_invariant (λ st, consistent (fst st)));
    [done|intros; by apply consistent_syncNote].
Qed.

Lemma consistent_parentAndChild : consistent parentAndChild.
Proof.
  unfold parentAndChild, addResp. apply consistent_attrLoop.
  apply (foldl_invariant consistent).
  - apply (foldl_invariant consistent); [apply consistent_emptyCache|].
    intros c' row _. apply consistent_addNoteRow.
  - intros c' row _. apply consistent_addBranchRow.
Defined.

Lemma processSyncRows_keeps_notes_consistent_witness :
  consistent (fst (processSyncRows [SyncRow.Branches "b2" "src" (edge "b2" "C" "Q" false);
                                    SyncRow.Branches "b" "src" (edge "b" "C" "P" true)]
                                   parentAndChild)).
Proof.
  apply (processSyncRows_keeps_notes_consistent
           [SyncRow.Branches "b2" "src" (edge "b2" "C" "Q" false);
            SyncRow.Branches "b" "src" (edge "b" "C" "P" true)] parentAndChild).
  apply consistent_parentAndChild.
Defined.

(** ** The first load *)

Lemma promises_noteLoop rows c :
  noteComplementPromises (foldl addNoteRow c rows) = noteComplementPromises c.
Proof.
  apply foldl_unchanged. intros c' row _.
  change (noteComplementPromises (detachOldNote (NoteRow.noteId row) c')
          = noteComplementPromises c').
  apply promises_detachOldNote.
Qed.

Lemma branches_noteLoop_empty rows c :
  branches c = ∅ → branches (foldl addNoteRow c rows) = ∅.
Proof.
  intros Hc. apply map_eq. intros b. rewrite lookup_empty.
  destruct (branches (foldl addNoteRow c rows) !! b) as [x|] eqn:Hb; [|done].
  apply branches_noteLoop_lookup in Hb. by rewrite Hc, lookup_empty in Hb.
Qed.

Lemma loadInitialTree_settles server_tree w :
  settledWorld (loadInitialTree server_tree w)
  = Some (with_cache (perform [ServerGet "tree"] w)
            (outcomeCache (addResp (TreeResp.notes (server_tree (effects w)))
                                   (TreeResp.branches (server_tree (effects w)))
                                   (TreeResp.attributes (server_tree (effects w)))
                                   emptyCache))).
Proof. unfold loadInitialTree. by destruct (addResp _ _ _ _). Qed.

(** X19: [loadInitialTree] asks the server for the tree once and settles,
    resolving if the merge completes and rejecting if it throws; either way
    the cache keeps nothing of what it held: the resident notes are the
    notes of the answer, the branches are the branch rows of the answer (the
    last row of an id winning), no note complement is cached, and the notes
    are consistent. *)
Theorem loadInitialTree_replaces_cache server_tree w :
  ∃ w', settledWorld (loadInitialTree server_tree w) = Some w'
    ∧ effects w' = effects w ++ [ServerGet "tree"]
    ∧ (∀ k, is_Some (notes (cache w') !! k)
            ↔ k ∈ map NoteRow.noteId (TreeResp.notes (server_tree (effects w))))
    ∧ branches (cache w')
      = insertAll BranchRow.branchId Branch.new
                  (TreeResp.branches (server_tree (effects w))) ∅
    ∧ noteComplementPromises (cache w') = ∅
    ∧ consistent (cache w').
Proof.
  eexists. split; [apply loadInitialTree_settles|].
  set (resp := server_tree (effects w)). cbn [with_cache perform cache effects].
  unfold addResp.
  destruct (attrLoop_outcome (TreeResp.attributes resp)
              (foldl addBranchRow (foldl addNoteRow emptyCache (TreeResp.notes resp))
                     (TreeResp.branches resp))) as (Hadj & Hbr & Hprom).
  split_and!.
  - done.
  - intros k. rewrite (sameAdjacency_resident _ _ k Hadj).
    rewrite resident_branchLoop, resident_noteLoop. simpl. rewrite lookup_empty.
    split; [|by left]. intros [?|[? ?]]; done.
  - rewrite Hbr, branches_branchLoop. f_equal. by apply branches_noteLoop_empty.
  - by rewrite Hprom, promises_branchLoop, promises_noteLoop.
  - apply consistent_attrLoop. apply (foldl_invariant consistent).
    + apply (foldl_invariant consistent); [apply consistent_emptyCache|].
      intros c' row _. apply consistent_addNoteRow.
    + intros c' row _. apply consistent_addBranchRow.
Qed.

(** ** Module lookup of a script *)




(** X21: [require] throws "Could not find module note <name>" exactly when
    no note of the context is both among the allowed module notes and
    titled with the name: a module that exists but is not allowed is not
    found, and an allowed module is never reported missing. *)
Theorem require_unknown_module (Exports : Type) allNotes
    (modules : gmap string Exports) moduleNoteIds moduleName :
  ScriptContext.require Exports allNotes modules moduleNoteIds moduleName
  = inr (Error ("Could not find module note " +:+ moduleName))
  ↔ ∀ note, note ∈ allNotes → ScriptContext.noteId note ∈ moduleNoteIds →
            ScriptContext.title note ≠ moduleName.
Proof.
  unfold ScriptContext.require.
  destruct (List.find _ _) as [found|] eqn:Hfind.
  - apply List.find_some in Hfind as [Hin Htitle].
    apply List.filter_In in Hin as [Hin Hinc].
    apply String.eqb_eq in Htitle. unfold includes in Hinc.
    apply bool_decide_eq_true in Hinc. apply list_elem_of_In in Hin.
    split.
    + by destruct (modules !! ScriptContext.noteId found).
    + intros Hnone. by destruct (Hnone found Hin Hinc).
  - split; [|done]. intros _ note Hin Hinc. apply String.eqb_neq.
    apply (List.find_none _ _ Hfind). apply List.filter_In.
    split; [by apply list_elem_of_In|]. unfold includes. by apply bool_decide_eq_true.
Qed.
